(** * Tecendil backend: dictionary compiler, scorer, query engine and ring cache

    A shallow embedding of [index.js].  JavaScript strings are sequences of
    UTF-16 code units; scores are the exact rationals behind the doubles the
    program computes; a thrown exception is the [None] of the option monad. *)

From Stdlib Require Import ZArith QArith Qround Qminmax Lia String Ascii.
From stdpp Require Import base option list gmap.

Set Warnings "-register-all".
Local Open Scope Z_scope.

(** ** JavaScript strings *)

(** A string is the list of its UTF-16 code units. *)
Abbreviation jsstring := (list N).

(** An ASCII literal of the source, unit by unit. *)
Definition js (s : string) : jsstring :=
  List.map N_of_ascii (list_ascii_of_string s).

(** [s.length] *)
Definition len (s : jsstring) : Z := Z.of_nat (length s).

(** [w.startsWith(q)] *)
Fixpoint startsWith (w q : jsstring) : bool :=
  match q, w with
  | [], _ => true
  | _ :: _, [] => false
  | c :: q', d :: w' => N.eqb c d && startsWith w' q'
  end.

(** [w.indexOf(q)]: the first position at which [q] occurs, -1 if none. *)
Fixpoint indexOf_from (i : Z) (w q : jsstring) : Z :=
  if startsWith w q then i
  else match w with
       | [] => -1
       | _ :: w' => indexOf_from (i + 1) w' q
       end.

Definition indexOf (w q : jsstring) : Z := indexOf_from 0 w q.

(** ToIntegerOrInfinity followed by the clamp to [0, s.length] that
    [substring] and [substr] apply to a position. *)
Definition clamp (s : jsstring) (i : Z) : nat :=
  Z.to_nat (Z.min (Z.max i 0) (len s)).

(** [s.substring(start, end)]: negative arguments count as 0, arguments past
    the end as the length, and the two are swapped when out of order. *)
Definition substring (s : jsstring) (start stop : Z) : jsstring :=
  let a := clamp s start in
  let b := clamp s stop in
  take (Nat.max a b - Nat.min a b) (drop (Nat.min a b) s).

(** [s.substring(start)] *)
Definition substring_from (s : jsstring) (start : Z) : jsstring :=
  substring s start (len s).

(** [s.substr(start, length)] for a non-negative [start]. *)
Definition substr (s : jsstring) (start length : Z) : jsstring :=
  take (Z.to_nat (Z.max length 0)) (drop (clamp s start) s).

(** [s.substr(start)] for a non-negative [start]. *)
Definition substr_from (s : jsstring) (start : Z) : jsstring :=
  drop (clamp s start) s.

(** [s.split(sep)] for a separator that matches exactly one code unit:
    the pieces between the matching units, [""] included. *)
Fixpoint split (sep : N -> bool) (s : jsstring) : list jsstring :=
  match s with
  | [] => [[]]
  | c :: s' =>
      if sep c then [] :: split sep s'
      else match split sep s' with
           | [] => [[c]]
           | p :: ps => (c :: p) :: ps
           end
  end.

(** ** Dictionary entries *)

(** The object built by [compileDictionaryRecursive]; an [undefined]
    property is [None]. *)
Record DictionaryEntry := {
  v : option jsstring;
  index : list jsstring;
  language : option jsstring;
  pos : jsstring;
  gloss : option jsstring;
  stem : option jsstring;
  notes : option jsstring;
  tengwar : option jsstring;
  elements : list jsstring
}.

(** ** Scorer *)

(** [Math.round]: the nearest integer, halves upwards. *)
Definition Math_round (x : Q) : Z := Qfloor (x + (1 # 2)).

(** The program computes with doubles.  A quotient of two string lengths is
    rounded to the nearest double, which keeps the order of the quotients,
    the comparison with 99, and, a quotient being either half an integer or
    at least [1 / (2 * word.length)] away from one, the value of
    [Math.round]; so the exact rationals give the same scores. *)
Definition computeWordScore (word q : jsstring) : Q :=
  if decide (word = q) then 99
  else if startsWith word q then
    inject_Z (98 * len q) / inject_Z (len word)
  else if 0 <=? indexOf word q then
    inject_Z (70 * len q) / inject_Z (len word)
  else 0.

Section Folder.

(** [ascii-folder.js] is not part of the sources: [fold s] is
    [asciiFolder.fold(s)] at a string, [fold_undefined] the string it
    returns at [undefined], [None] when that call throws or returns
    something without a [toLowerCase] method. *)
Variable fold : jsstring -> jsstring.
Variable fold_undefined : option jsstring.

(** [String.prototype.toLowerCase], which follows the Unicode case
    tables. *)
Variable toLowerCase : jsstring -> jsstring.

(** The expression [asciiFolder.fold(x).toLowerCase()]. *)
Definition fold_toLowerCase (x : option jsstring) : option jsstring :=
  match x with
  | Some s => Some (toLowerCase (fold s))
  | None => toLowerCase <$> fold_undefined
  end.

(** The [for] loop of [computeScore], entered with the running [score]. *)
Fixpoint computeScore_loop (node : DictionaryEntry) (q : jsstring)
    (words : list jsstring) (score : Q) : option Z :=
  match words with
  | [] => Some (Math_round score)
  | word :: words' =>
      let score := Qmax score (computeWordScore word q) in
      if Qeq_bool score 99 then
        lemma ← fold_toLowerCase (v node);
        if decide (lemma = q) then Some 100
        else
          g ← fold_toLowerCase (gloss node);
          if decide (g = q) then Some 100
          else computeScore_loop node q words' score
      else computeScore_loop node q words' score
  end.

Definition computeScore (node : DictionaryEntry) (q : jsstring) : option Z :=
  computeScore_loop node q (index node) 0.

End Folder.

(** ** Query engine *)

(** An element of a result: [{ v, gloss }]. *)
Record Element := { elem_v : jsstring; elem_gloss : jsstring }.

(** A result of [matchQuery]: the properties copied by [...entry], the
    score, and the [elements] property that replaces the copied one. *)
Record ResultEntry := {
  spread : DictionaryEntry;
  score : Z;
  result_elements : list Element
}.

Section QueryEngine.

Variable fold : jsstring -> jsstring.
Variable fold_undefined : option jsstring.
Variable toLowerCase : jsstring -> jsstring.

(** The module-level [Map] from headword to short gloss; [entry.v] may be
    [undefined], which is a key like any other. *)
Variable gShortDefinitions : gmap (option jsstring) jsstring.

(** [gShortDefinitions.get(k) ?? ""] *)
Definition get_or_empty (k : jsstring) : jsstring :=
  default [] (gShortDefinitions !! Some k).

(** The loop of [matchQuery] over the entries left, [result] being the
    array pushed to so far. *)
Fixpoint matchQuery_loop (q : jsstring) (entries : list DictionaryEntry)
    (result : list ResultEntry) : option (list ResultEntry) :=
  match entries with
  | [] => Some result
  | entry :: entries' =>
      score ← computeScore fold fold_undefined toLowerCase entry q;
      if 0 <? score then
        matchQuery_loop q entries'
          (result ++
           [ {| spread := entry;
                score := score;
                result_elements :=
                  (λ v, {| elem_v := v; elem_gloss := get_or_empty q |})
                    <$> elements entry |} ])
      else matchQuery_loop q entries' result
  end.

(** [gEldamoDictionary] is [undefined] ([None]) when loading failed;
    iterating over it with [for ... of] then throws a TypeError. *)
Definition matchQuery (gEldamoDictionary : option (list DictionaryEntry))
    (q : jsstring) : option (list ResultEntry) :=
  dictionary ← gEldamoDictionary;
  matchQuery_loop q dictionary [].

End QueryEngine.

(** ** Ring cache *)

Local Close Scope Z_scope.

Record Slot := { key : jsstring; value : jsstring }.

(** The array [gRing], an empty or [undefined] element being [None], and
    the cursor [gRingIndex]. *)
Record Ring := { gRing : list (option Slot); gRingIndex : nat }.

Definition RING_SIZE : nat := 40.

(** [new Array(RING_SIZE)] and [gRingIndex = 0]. *)
Definition emptyRing : Ring :=
  {| gRing := replicate RING_SIZE None; gRingIndex := 0 |}.

(** [a[i] = x]: past the end the array grows, the gap left empty. *)
Definition array_set {A} (i : nat) (x : option A) (a : list (option A))
    : list (option A) :=
  if (i <? length a) then <[i := x]> a
  else a ++ replicate (i - length a) None ++ [x].

(** [a.splice(i, 1)]: nothing is removed past the end. *)
Definition splice_remove {A} (i : nat) (a : list A) : list A := delete i a.

(** [a.splice(i, 0, x)]: a position past the end appends. *)
Definition splice_insert {A} (i : nat) (x : A) (a : list A) : list A :=
  take i a ++ x :: drop i a.

Definition addToRing (k v : jsstring) (r : Ring) : Ring :=
  {| gRing := array_set (gRingIndex r) (Some {| key := k; value := v |}) (gRing r);
     gRingIndex := (gRingIndex r + 1) mod RING_SIZE |}.

(** Truthiness of [result]: [undefined] and the empty string are falsy. *)
Definition truthy (result : option jsstring) : bool :=
  match result with
  | Some (_ :: _) => true
  | _ => false
  end.

(** The branch of [getFromRing] taken when [gRing[i]] holds the key. *)
Definition promote (i : nat) (r : Ring) : Ring :=
  if decide (gRingIndex r ≠ i) then
    let a1 := array_set (gRingIndex r) (default None (gRing r !! i)) (gRing r) in
    let a2 := splice_remove i a1 in
    let idx :=
      if (gRingIndex r <? i) then (gRingIndex r + 1) mod length a2
      else gRingIndex r in
    {| gRing := splice_insert idx None a2; gRingIndex := idx |}
  else
    {| gRing := gRing r; gRingIndex := (gRingIndex r + 1) mod length (gRing r) |}.

(** One pass through the body of the [while] loop of [getFromRing]. *)
Definition getFromRing_body (k : jsstring) (i : nat)
    (result : option jsstring) (r : Ring) : option jsstring * Ring :=
  match gRing r !! i with
  | Some (Some slot) =>
      if decide (key slot = k) then (Some (value slot), promote i r)
      else (result, r)
  | _ => (result, r)
  end.

(** The [while] loop of [getFromRing]; [fuel] bounds the number of passes. *)
Fixpoint getFromRing_loop (fuel : nat) (k : jsstring) (i : nat)
    (result : option jsstring) (r : Ring) : option jsstring * Ring :=
  match fuel with
  | O => (result, r)
  | S fuel' =>
      if negb (truthy result) && (i <? length (gRing r)) then
        let '(result', r') := getFromRing_body k i result r in
        getFromRing_loop fuel' k (S i) result' r'
      else (result, r)
  end.

(** [getFromRing(k)]: the value returned and the ring left behind.  The
    loop counts [i] up to the length of the array, so as many passes as the
    array has elements are enough (see [getFromRing_loop_enough]). *)
Definition getFromRing (k : jsstring) (r : Ring) : option jsstring * Ring :=
  getFromRing_loop (length (gRing r)) k 0 None r.

(** ** The raw lexicon *)

(** The attributes of a node that the program reads. *)
Record Attributes := {
  attr_v : option jsstring;
  attr_gloss : option jsstring;
  attr_ngloss : option jsstring;
  attr_speech : option jsstring;
  attr_l : option jsstring;
  attr_stem : option jsstring;
  attr_tengwar : option jsstring
}.

(** An element of the [xmldoc] document: its name, attributes, text and
    child elements. *)
Inductive XmlElement :=
  XmlNode (name : jsstring) (attr : Attributes) (val : jsstring)
          (children : list XmlElement).

Definition name (node : XmlElement) : jsstring :=
  let 'XmlNode n _ _ _ := node in n.
Definition attr (node : XmlElement) : Attributes :=
  let 'XmlNode _ a _ _ := node in a.
Definition val (node : XmlElement) : jsstring :=
  let 'XmlNode _ _ t _ := node in t.
Definition children (node : XmlElement) : list XmlElement :=
  let 'XmlNode _ _ _ c := node in c.

(** [node.childrenNamed(n)] and [node.childNamed(n)] *)
Definition childrenNamed (n : jsstring) (node : XmlElement) : list XmlElement :=
  filter (λ child, name child = n) (children node).
Definition childNamed (n : jsstring) (node : XmlElement) : option XmlElement :=
  head (childrenNamed n node).

(** ** Tokenizer *)

Definition STOP_WORDS : list jsstring :=
  js <$> [ "?"; "[]"; "[="; "&"; "="; "-"; "*-"; "/"; ">>}"; "a"; "b"; "c.";
           "am"; "an"; "as"; "at"; "be"; "by"; "do"; "f."; "go"; "he"; "i";
           "if"; "in"; "it"; "is"; "m."; "me"; "my"; "n."; "no"; "o"; "of";
           "on"; "or"; "q."; "sg"; "so"; "t."; "to"; "the"; "up"; "us"; "we";
           "(lit."; "lit."; "..." ]%string.

(** The separators [" "] and [/[,;]/]. *)
Definition isSpace (c : N) : bool := (c =? 32)%N.
Definition isCommaOrSemicolon (c : N) : bool := (c =? 44)%N || (c =? 59)%N.

(** The classes [/[\*\?\(\{\[]/], [/[\]\)]/] and [/[0-9]/]. *)
Definition isLeadingMarker (c : N) : bool :=
  bool_decide (c ∈ [42; 63; 40; 123; 91]%N).
Definition isClosingBracket (c : N) : bool := (c =? 93)%N || (c =? 41)%N.
Definition isDigit (c : N) : bool := (48 <=? c)%N && (c <=? 57)%N.

(** The body of the inner loop of [computeIndex]: the word pushed for a
    candidate word of the gloss, if any.  [word[word.length - 1]] is
    [undefined] at an empty word, which no bracket matches. *)
Definition indexWord (word : jsstring) : option jsstring :=
  match word with
  | [] => None
  | firstChar :: _ =>
      let word := if isLeadingMarker firstChar then substring_from word 1 else word in
      let word :=
        match last word with
        | Some lastChar =>
            if isClosingBracket lastChar then substring word 0 (-1) else word
        | None => word
        end in
      if bool_decide (word ≠ []) && negb (existsb isDigit word)
         && negb (bool_decide (word ∈ STOP_WORDS))
      then Some word else None
  end.

Section Compiler.

Variable fold : jsstring -> jsstring.
Variable fold_undefined : option jsstring.
Variable toLowerCase : jsstring -> jsstring.

Definition computeIndex (node : XmlElement) : option (list jsstring) :=
  v ← fold_toLowerCase fold fold_undefined toLowerCase (attr_v (attr node));
  let index := filter (λ word, word ≠ []) (split isSpace v) in
  let phrases :=
    split isCommaOrSemicolon
      (toLowerCase
         (fold (default (default [] (attr_gloss (attr node)))
                        (attr_ngloss (attr node))))) in
  Some (index ++ (phrases ≫= λ phrase, omap indexWord (split isSpace phrase))).

(** The hints [ñ], [ñ-], [þ], [þ-], [ñorþus] and the glyphs written. *)
Definition ntilde : N := 241.        (* U+00F1 *)
Definition Ntilde : N := 209.        (* U+00D1 *)
Definition thorn : N := 254.         (* U+00FE *)
Definition Thorn : N := 222.         (* U+00DE *)
Definition northus : jsstring := [ntilde] ++ js "or" ++ [thorn] ++ js "us".
Definition Northus : jsstring := [Ntilde] ++ js "or" ++ [thorn] ++ js "us".

Definition correctTengwar (node : XmlElement) : option jsstring :=
  match attr_v (attr node), attr_tengwar (attr node) with
  | Some ((_ :: _) as v), Some ((_ :: _) as tengwar) =>
      if bool_decide (tengwar = [ntilde]) || bool_decide (tengwar = [ntilde] ++ js "-") then
        if bool_decide (v !! 0%nat = Some 110%N) then
          Some ([ntilde] ++ substring_from v 1)
        else if bool_decide (v !! 0%nat = Some 78%N) then
          Some ([Ntilde] ++ substring_from v 1)
        else Some v
      else if bool_decide (tengwar = [thorn]) || bool_decide (tengwar = [thorn] ++ js "-") then
        let index := indexOf (toLowerCase v) (js "s") in
        if (0 <=? index)%Z then
          Some (substr v 0 index
                ++ (if bool_decide (v !! Z.to_nat index = Some 83%N)
                    then [Thorn] else [thorn])
                ++ substr_from v (index + 1))
        else Some v
      else if bool_decide (tengwar = northus) then Some Northus
      else Some v
  | v, _ => v
  end.

(** The parts of speech that are not entries. *)
Definition excluded_pos : list jsstring :=
  js <$> [ "suf"; "pref"; "phoneme"; "phonetics"; "phonetic-rule";
           "phonetic-group"; "grammar" ]%string.

(** The entry built for a node that qualifies; [computeIndex] may throw. *)
Definition makeEntry (node : XmlElement) (pos : jsstring)
    : option DictionaryEntry :=
  let elements := omap (λ x, attr_v (attr x)) (childrenNamed (js "element") node) in
  let notes := childNamed (js "notes") node in
  let v := correctTengwar node in
  index ← computeIndex node;
  Some {| v := v;
          index := index;
          language := attr_l (attr node);
          pos := pos;
          gloss := match attr_ngloss (attr node) with
                   | Some g => Some g
                   | None => attr_gloss (attr node)
                   end;
          stem := attr_stem (attr node);
          notes := val <$> notes;
          tengwar := attr_tengwar (attr node);
          elements := elements |}.

Fixpoint compileDictionaryRecursive (node : XmlElement)
    : option (list DictionaryEntry) :=
  let 'XmlNode name attr _ children := node in
  result ←
    (if bool_decide (name = js "word") then
       let pos := default [] (attr_speech attr) in
       if bool_decide (pos ∉ excluded_pos) then
         entry ← makeEntry node pos; Some [entry]
       else Some []
     else Some []);
  rest ←
    (fix eachChild (cs : list XmlElement) : option (list DictionaryEntry) :=
       match cs with
       | [] => Some []
       | child :: cs' =>
           r ← compileDictionaryRecursive child;
           rs ← eachChild cs';
           Some (r ++ rs)
       end) children;
  Some (result ++ rest).

(** The sentinel ["[unglossed]"] and the separator [" / "]. *)
Definition unglossed : jsstring := js "[unglossed]".
Definition separator : jsstring := js " / ".

(** The body of the loop of [compileDictionary] on the short-gloss table. *)
Definition addShortDefinition (gShortDefinitions : gmap (option jsstring) jsstring)
    (entry : DictionaryEntry) : gmap (option jsstring) jsstring :=
  match gloss entry with
  | Some ((_ :: _) as g) =>
      if bool_decide (g ≠ unglossed) then
        match gShortDefinitions !! v entry with
        | None => <[v entry := g]> gShortDefinitions
        | Some def =>
            if bool_decide (def ≠ g)
            then <[v entry := def ++ separator ++ g]> gShortDefinitions
            else gShortDefinitions
        end
      else gShortDefinitions
  | _ => gShortDefinitions
  end.

(** [compileDictionary(eldamoRoot)]: the entries returned and the table
    [gShortDefinitions] it leaves, from the table it found. *)
Definition compileDictionary (eldamoRoot : XmlElement)
    (gShortDefinitions : gmap (option jsstring) jsstring)
    : option (list DictionaryEntry * gmap (option jsstring) jsstring) :=
  result ← compileDictionaryRecursive eldamoRoot;
  Some (result, foldl addShortDefinition gShortDefinitions result).

(** [loadDictionary()]: [json] is the parsed [eldamo-data.json], [xml] the
    parsed [eldamo-data.xml], [None] when reading or parsing throws.  The
    value returned is [undefined] when both fail or compiling throws. *)
Definition loadDictionary (json : option (list DictionaryEntry))
    (xml : option XmlElement) : option (list DictionaryEntry) :=
  match json with
  | Some result => Some result
  | None => root ← xml; fst <$> compileDictionary root ∅
  end.

End Compiler.

(** ** Stand-ins for the functions outside the sources *)

(** Modelled from the spec: [ascii-folder.js] is missing from the sources.
    Its [fold] "is the identity on already-ASCII input" (§4.1); the closed
    examples below apply it to ASCII strings only, where this identity
    stands for it. *)
Definition fold_ascii (s : jsstring) : jsstring := s.

(** The lower case of a letter of Basic Latin or Latin-1; other units are
    kept. *)
Definition lowerLatin (c : N) : N :=
  if (65 <=? c)%N && (c <=? 90)%N then (c + 32)%N
  else if (192 <=? c)%N && (c <=? 222)%N && negb (c =? 215)%N then (c + 32)%N
  else c.

(** [toLowerCase] on one code unit: U+0130 is the one character whose lower
    case has two code units, U+0069 U+0307. *)
Definition lowerUnit (c : N) : jsstring :=
  if (c =? 304)%N then [105; 775]%N else [lowerLatin c].

(** [String.prototype.toLowerCase] on strings over the units up to U+00FF
    and U+0130; used to evaluate the program at concrete strings. *)
Definition toLowerCase_latin (s : jsstring) : jsstring := s ≫= lowerUnit.

(** ** The LRU contract of the specification *)

(** The cache the specification asks for, written from its words: at most
    [capacity] entries, least recently used first.  A hit moves the entry to
    the most recently used end; a put into a full cache evicts the least
    recently used entry; nothing else removes an entry. *)
Definition lru_put (capacity : nat) (k v : jsstring) (c : list Slot) : list Slot :=
  (if length c <? capacity then c else tail c) ++ [ {| key := k; value := v |} ].

Fixpoint lru_find (k : jsstring) (c : list Slot) : option (Slot * list Slot) :=
  match c with
  | [] => None
  | s :: c' =>
      if decide (key s = k) then Some (s, c')
      else '(hit, rest) ← lru_find k c'; Some (hit, s :: rest)
  end.

Definition lru_get (k : jsstring) (c : list Slot) : option jsstring * list Slot :=
  match lru_find k c with
  | Some (hit, rest) => (Some (value hit), rest ++ [hit])
  | None => (None, c)
  end.

(** The operations a client performs on either cache. *)
Inductive CacheOp := Put (k v : jsstring) | Get (k : jsstring).

Definition ring_step (r : Ring) (op : CacheOp) : Ring :=
  match op with
  | Put k v => addToRing k v r
  | Get k => snd (getFromRing k r)
  end.

Definition lru_step (capacity : nat) (c : list Slot) (op : CacheOp) : list Slot :=
  match op with
  | Put k v => lru_put capacity k v c
  | Get k => snd (lru_get k c)
  end.

(** ** Reading the ring as a recency order *)

(** The shape of the ring: [RING_SIZE] slots and a cursor among them. *)
Definition ring_ok (r : Ring) : Prop :=
  length (gRing r) = RING_SIZE ∧ gRingIndex r < RING_SIZE.

(** The slots in ring order, starting at the cursor. *)
Definition view (r : Ring) : list (option Slot) :=
  drop (gRingIndex r) (gRing r) ++ take (gRingIndex r) (gRing r).

(** The entries held, in ring order from the cursor on, and their keys. *)
Definition contents (r : Ring) : list Slot := omap id (view r).
Definition ring_keys (r : Ring) : list jsstring := key <$> contents r.

(** Whether the slot under the cursor holds an entry. *)
Definition cursor_occupied (r : Ring) : bool :=
  match gRing r !! gRingIndex r with
  | Some (Some _) => true
  | _ => false
  end.

(** What the route [/define/:word] maintains: keys are stored once, since
    [addToRing] follows a miss, and the values, JSON texts, are not empty. *)
Definition ring_inv (r : Ring) : Prop :=
  ring_ok r ∧ NoDup (ring_keys r) ∧ Forall (λ s, value s ≠ []) (contents r).

(** The runs of a client that, like the route, puts a key only when the
    ring does not hold it, and puts non-empty values. *)
Fixpoint admissible (r : Ring) (ops : list CacheOp) : Prop :=
  match ops with
  | [] => True
  | op :: ops' =>
      (match op with
       | Put k v => (k ∉ ring_keys r) ∧ v ≠ []
       | Get _ => True
       end) ∧ admissible (ring_step r op) ops'
  end.

(** The key an operation names, and whether the operation touches it: a put
    always does, a get when the ring holds the key. *)
Definition op_key (op : CacheOp) : jsstring :=
  match op with Put k _ => k | Get k => k end.

Definition touches (r : Ring) (op : CacheOp) : bool :=
  match op with
  | Put _ _ => true
  | Get k => bool_decide (k ∈ ring_keys r)
  end.

(** The keys touched so far, the least recently touched first: touching a
    key moves it to the end. *)
Definition touch (k : jsstring) (h : list jsstring) : list jsstring :=
  filter (λ k', k' ≠ k) h ++ [k].

Definition history_step (rh : Ring * list jsstring) (op : CacheOp)
    : Ring * list jsstring :=
  (ring_step rh.1 op,
   if touches rh.1 op then touch (op_key op) rh.2 else rh.2).

(** ** The tengwar correction of the specification *)

(** The sibilant rule written from the words of the specification: the
    first [s] or [S] of the headword is replaced, [s] by þ and [S] by Þ. *)
Fixpoint replace_first_sibilant (v : jsstring) : jsstring :=
  match v with
  | [] => []
  | c :: v' =>
      if (c =? 115)%N then thorn :: v'
      else if (c =? 83)%N then Thorn :: v'
      else c :: replace_first_sibilant v'
  end.

(** The nasal rule: an initial [n] becomes ñ, an initial [N] becomes Ñ. *)
Definition replace_initial_nasal (v : jsstring) : jsstring :=
  match v with
  | c :: v' =>
      if (c =? 110)%N then ntilde :: v'
      else if (c =? 78)%N then Ntilde :: v'
      else v
  | [] => []
  end.

(** ** Reading the short-gloss table *)

(** The gloss under which [compileDictionary] enters an entry into the
    table: a non-empty gloss other than the sentinel. *)
Definition short_gloss_of (entry : DictionaryEntry) : option jsstring :=
  match gloss entry with
  | Some ((_ :: _) as g) => if bool_decide (g ≠ unglossed) then Some g else None
  | _ => None
  end.

(** The length of the gloss the table holds for a headword, 0 if none. *)
Definition gloss_length (table : gmap (option jsstring) jsstring)
    (k : option jsstring) : nat :=
  from_option length 0%nat (table !! k).

(** The result object [matchQuery] pushes for an entry and its score. *)
Definition result_for (table : gmap (option jsstring) jsstring)
    (q : jsstring) (entry : DictionaryEntry) (score : Z) : ResultEntry :=
  {| spread := entry;
     score := score;
     result_elements :=
       (λ v, {| elem_v := v; elem_gloss := get_or_empty table q |})
         <$> elements entry |}.

(** No headword comes with two different glosses. *)
Definition single_gloss (entries : list DictionaryEntry) : Prop :=
  ∀ e1 e2 g1 g2, e1 ∈ entries → e2 ∈ entries →
    short_gloss_of e1 = Some g1 → short_gloss_of e2 = Some g2 →
    v e1 = v e2 → g1 = g2.

(** ** Start-up: the short-gloss table *)

(** The table [gShortDefinitions] once the module is loaded: it starts
    empty and only [compileDictionary] writes to it, which [loadDictionary]
    calls when [eldamo-data.json] could not be read. *)
Definition gShortDefinitions_loaded (fold : jsstring -> jsstring)
    (fold_undefined : option jsstring) (toLowerCase : jsstring -> jsstring)
    (json : option (list DictionaryEntry)) (xml : option XmlElement)
    : gmap (option jsstring) jsstring :=
  match json with
  | Some _ => ∅
  | None =>
      match xml ≫= λ root, compileDictionary fold fold_undefined toLowerCase root ∅ with
      | Some (_, table) => table
      | None => ∅
      end
  end.

(** ** The route [/define/:word] *)

(** [a.join(sep)] *)
Fixpoint join (sep : jsstring) (a : list jsstring) : jsstring :=
  match a with
  | [] => []
  | [x] => x
  | x :: a' => x ++ sep ++ join sep a'
  end.

Section Route.

Variable fold : jsstring -> jsstring.
Variable fold_undefined : option jsstring.
Variable toLowerCase : jsstring -> jsstring.
Variable gShortDefinitions : gmap (option jsstring) jsstring.
Variable gEldamoDictionary : option (list DictionaryEntry).

(** [JSON.stringify] at one result object; the text of an object is left
    open, the text of an array is fixed by it. *)
Variable JSON_stringify_object : ResultEntry -> jsstring.

(** [JSON.stringify(result)] at an array of objects: the texts of the
    elements between brackets, separated by commas. *)
Definition JSON_stringify (result : list ResultEntry) : jsstring :=
  js "[" ++ join (js ",") (JSON_stringify_object <$> result) ++ js "]".

(** The handler of [app.get("/define/:word", ...)]: the body sent and the
    ring left behind; [None] when [matchQuery] throws and nothing is sent by
    the handler.  The headers it sets are left out. *)
Definition define (word : jsstring) (ring : Ring) : option jsstring * Ring :=
  let q := toLowerCase (fold word) in
  let '(r, ring) := getFromRing q ring in
  if truthy r then (r, ring)
  else
    match matchQuery fold fold_undefined toLowerCase gShortDefinitions
            gEldamoDictionary q with
    | Some result =>
        let r := JSON_stringify result in
        (Some r, addToRing q r ring)
    | None => (None, ring)
    end.

(** The ring after a sequence of requests. *)
Definition serve (ring : Ring) (words : list jsstring) : Ring :=
  foldl (λ ring word, (define word ring).2) ring words.

(** The operations one request performs on the ring. *)
Definition define_ops (word : jsstring) (ring : Ring) : list CacheOp :=
  let q := toLowerCase (fold word) in
  Get q ::
  (if truthy (getFromRing q ring).1 then []
   else match matchQuery fold fold_undefined toLowerCase gShortDefinitions
                gEldamoDictionary q with
        | Some result => [Put q (JSON_stringify result)]
        | None => []
        end).

Fixpoint serve_ops (ring : Ring) (words : list jsstring) : list CacheOp :=
  match words with
  | [] => []
  | word :: words' => define_ops word ring ++ serve_ops (define word ring).2 words'
  end.

(** Every entry of the ring holds the answer to its key. *)
Definition coherent (ring : Ring) : Prop :=
  ∀ s, s ∈ contents ring →
    matchQuery fold fold_undefined toLowerCase gShortDefinitions
      gEldamoDictionary (key s) ≫= (λ result, Some (JSON_stringify result))
    = Some (value s).

End Route.

(** ** Reading the scores and the results *)

(** The running maximum of the per-token scores. *)
Definition best (q : jsstring) (words : list jsstring) (score : Q) : Q :=
  foldl (λ s word, Qmax s (computeWordScore word q)) score words.

Section QueryReading.

Variable fold : jsstring -> jsstring.
Variable fold_undefined : option jsstring.
Variable toLowerCase : jsstring -> jsstring.

(** Whether [matchQuery] keeps an entry: its score is above 0. *)
Definition matches (q : jsstring) (entry : DictionaryEntry) : bool :=
  match computeScore fold fold_undefined toLowerCase entry q with
  | Some score => (0 <? score)%Z
  | None => false
  end.

End QueryReading.

(** ** Reading the document *)

(** The nodes of a document in document order: a node, then the subtrees
    of its children from first to last, as [eachChild] visits them. *)
Fixpoint preorder (node : XmlElement) : list XmlElement :=
  let 'XmlNode _ _ _ children := node in
  node ::
  (fix eachChild (cs : list XmlElement) : list XmlElement :=
     match cs with
     | [] => []
     | child :: cs' => preorder child ++ eachChild cs'
     end) children.

(** The part of speech [node.attr.speech ?? ""], and the test under which
    [compileDictionaryRecursive] builds an entry for a node. *)
Definition speech (node : XmlElement) : jsstring :=
  default [] (attr_speech (attr node)).
Definition is_entry (node : XmlElement) : bool :=
  bool_decide (name node = js "word") && bool_decide (speech node ∉ excluded_pos).

(** ** Reading the merged glosses *)

(** The glosses that [compileDictionary] meets for a headword, in the order
    of the entries. *)
Definition glosses_of (k : option jsstring) (entries : list DictionaryEntry)
    : list jsstring :=
  omap (λ e, if decide (v e = k) then short_gloss_of e else None) entries.

(** A gloss followed by further glosses, each behind [" / "]. *)
Definition merge_glosses (g : jsstring) (gs : list jsstring) : jsstring :=
  foldl (λ def g', def ++ separator ++ g') g gs.

(** ** Reading the ring: empty slots and distances *)

(** The empty slots of the ring form one block that starts under the
    cursor, the entries follow. *)
Definition packed (r : Ring) : Prop :=
  view r = replicate (RING_SIZE - length (contents r)) None ++ (Some <$> contents r).

(** The slot [s] lies at least [n] slots behind the cursor in ring order. *)
Definition behind_cursor (s : Slot) (r : Ring) (n : nat) : Prop :=
  ∃ V1 V2, view r = V1 ++ Some s :: V2 ∧ n ≤ length V1.

(** The precondition of one operation in an admissible run. *)
Definition admissible_op (r : Ring) (op : CacheOp) : Prop :=
  match op with
  | Put k v => (k ∉ ring_keys r) ∧ v ≠ []
  | Get _ => True
  end.

(** A decidable form of [admissible]. *)
Fixpoint admissibleb (r : Ring) (ops : list CacheOp) : bool :=
  match ops with
  | [] => true
  | op :: ops' =>
      match op with
      | Put k v => bool_decide (k ∉ ring_keys r) && bool_decide (v ≠ [])
      | Get _ => true
      end && admissibleb (ring_step r op) ops'
  end.

(** ** Reading the hints *)

(** The spelling a hint asks for: [ñ] and [ñ-] the nasal rule, [þ] and [þ-]
    the sibilant rule, [ñorþus] the fixed spelling, any other hint none. *)
Definition corrected (hint v : jsstring) : jsstring :=
  if decide (hint = [ntilde] ∨ hint = [ntilde] ++ js "-") then
    replace_initial_nasal v
  else if decide (hint = [thorn] ∨ hint = [thorn] ++ js "-") then
    replace_first_sibilant v
  else if decide (hint = northus) then Northus
  else v.

(** ** Example data *)

Definition no_attributes : Attributes :=
  {| attr_v := None; attr_gloss := None; attr_ngloss := None;
     attr_speech := None; attr_l := None; attr_stem := None;
     attr_tengwar := None |}.

(** An entry with the given headword, gloss, tokens and elements. *)
Definition entry_of (headword : jsstring) (g : option jsstring)
    (tokens elems : list jsstring) : DictionaryEntry :=
  {| v := Some headword; index := tokens; language := None; pos := [];
     gloss := g; stem := None; notes := None; tengwar := None;
     elements := elems |}.

Definition aragorn : DictionaryEntry :=
  entry_of (js "aragorn") None [js "aragorn"] [].

Definition minas_tirith : DictionaryEntry :=
  entry_of (js "minas tirith") (Some (js "tower of guard"))
    (js <$> ["minas"; "tirith"; "tower"; "guard"]%string) [].

(** A word node with a headword, a gloss and child nodes. *)
Definition word_node (headword g : string) (cs : list XmlElement) : XmlElement :=
  XmlNode (js "word")
    {| attr_v := Some (js headword); attr_gloss := Some (js g);
       attr_ngloss := None; attr_speech := None; attr_l := None;
       attr_stem := None; attr_tengwar := None |}
    [] cs.

(** An [element] child naming a headword. *)
Definition element_node (headword : string) : XmlElement :=
  XmlNode (js "element")
    {| attr_v := Some (js headword); attr_gloss := None;
       attr_ngloss := None; attr_speech := None; attr_l := None;
       attr_stem := None; attr_tengwar := None |}
    [] [].

(** A lexicon of two words, the second built on the first. *)
Definition lexicon : XmlElement :=
  XmlNode (js "word-data") no_attributes []
    [ word_node "ar" "noble" [];
      word_node "aran" "king" [element_node "ar"] ].

(** The entries and the short-gloss table compiled from [lexicon]. *)
Definition ar : DictionaryEntry :=
  entry_of (js "ar") (Some (js "noble")) [js "ar"; js "noble"] [].
Definition aran : DictionaryEntry :=
  entry_of (js "aran") (Some (js "king")) [js "aran"; js "king"] [js "ar"].
Definition lexicon_entries : list DictionaryEntry := [ar; aran].
Definition lexicon_table : gmap (option jsstring) jsstring :=
  <[Some (js "aran") := js "king"]> (<[Some (js "ar") := js "noble"]> ∅).

(** A lexicon in which one headword has two glosses. *)
Definition lexicon_two_glosses : XmlElement :=
  XmlNode (js "word-data") no_attributes []
    [ word_node "ar" "noble" []; word_node "ar" "beside" [] ].

(** A word node with a headword and a tengwar hint. *)
Definition hinted_node (headword hint : jsstring) : XmlElement :=
  XmlNode (js "word")
    {| attr_v := Some headword; attr_gloss := None; attr_ngloss := None;
       attr_speech := None; attr_l := None; attr_stem := None;
       attr_tengwar := Some hint |}
    [] [].

(** Forty distinct keys, each put with the JSON text of an empty result. *)
Definition key_n (n : nat) : jsstring := [N.of_nat n].
Definition fill_ops : list CacheOp :=
  (λ n, Put (key_n n) (js "[]")) <$> seq 0 RING_SIZE.

(** A ring with two entries and the cursor past them. *)
Definition two_entries : Ring :=
  addToRing (js "b") (js "[]") (addToRing (js "a") (js "[]") emptyRing).

(** [minas_tirith] with its tokens in another order, one of them twice. *)
Definition minas_tirith_shuffled : DictionaryEntry :=
  entry_of (js "minas tirith") (Some (js "tower of guard"))
    (js <$> ["guard"; "tirith"; "tower"; "minas"; "tower"]%string) [].

(** The second word of [lexicon]. *)
Definition aran_node : XmlElement :=
  word_node "aran" "king" [element_node "ar"].

(** A stand-in for [JSON.stringify] at a result object, used to evaluate the
    route at concrete requests: the headword between braces. *)
Definition headword_object (r : ResultEntry) : jsstring :=
  [123%N] ++ default [] (v (spread r)) ++ [125%N].

(** * Properties *)

Local Open Scope Z_scope.

(** ** Scorer *)

Lemma startsWith_length w q :
  startsWith w q = true → (length q ≤ length w)%nat ∧ (length q = length w → w = q).
Proof.
  revert w; induction q as [|c q IH]; intros [|d w] Hs; simpl in *; try done.
  - split; [lia | done].
  - apply andb_true_iff in Hs as [Hc Hs]. apply N.eqb_eq in Hc as ->.
    destruct (IH _ Hs) as [Hle Heq]. split; [lia|].
    intros Hl. f_equal. apply Heq. lia.
Qed.

Lemma indexOf_from_spec i w q :
  0 ≤ indexOf_from i w q → (length q ≤ length w)%nat.
Proof.
  revert i; induction w as [|d w IH]; intros i; cbn [indexOf_from].
  - destruct q; simpl; lia.
  - destruct (startsWith (d :: w) q) eqn:Hs.
    + intros _. by apply startsWith_length in Hs as [? _].
    + intros H. apply IH in H. simpl. lia.
Qed.

Lemma Qdiv_le_bound (a b c : Z) :
  0 < b → a ≤ c * b → (inject_Z a / inject_Z b <= inject_Z c)%Q.
Proof.
  intros Hb Hab. apply Qle_shift_div_r.
  - unfold Qlt; simpl; lia.
  - rewrite <- inject_Z_mult, <- Zle_Qle. done.
Qed.

Lemma Qdiv_nonneg (a b : Z) :
  0 ≤ a → 0 < b → (0 <= inject_Z a / inject_Z b)%Q.
Proof.
  intros Ha Hb. apply Qle_shift_div_l.
  - unfold Qlt; simpl; lia.
  - unfold Qle; simpl; lia.
Qed.

Lemma computeWordScore_bounds word q :
  word ≠ q → (0 <= computeWordScore word q <= 98)%Q.
Proof.
  intros Hne. unfold computeWordScore, len.
  destruct (decide (word = q)) as [|_]; [done|].
  destruct (startsWith word q) eqn:Hs.
  - apply startsWith_length in Hs as [Hle Heq].
    assert (length q < length word)%nat
      by (destruct (decide (length q = length word)); [naive_solver | lia]).
    split; [apply Qdiv_nonneg | apply (Qdiv_le_bound _ _ 98)]; lia.
  - destruct (0 <=? indexOf word q) eqn:Hi; [|done].
    apply Z.leb_le, indexOf_from_spec in Hi.
    destruct word as [|d word]; [destruct q; [done | simpl in Hi; lia]|].
    split; [apply Qdiv_nonneg | apply (Qdiv_le_bound _ _ 98)]; simpl in *; lia.
Qed.

Lemma computeWordScore_exact q : computeWordScore q q = 99%Q.
Proof. unfold computeWordScore. by rewrite decide_True. Qed.

Lemma computeWordScore_le_99 word q : (0 <= computeWordScore word q <= 99)%Q.
Proof.
  destruct (decide (word = q)) as [->|Hne].
  - rewrite computeWordScore_exact. done.
  - destruct (computeWordScore_bounds word q Hne) as [H0 H98].
    split; [done|]. eapply Qle_trans; [exact H98 | done].
Qed.

Lemma Math_round_bounds (x : Q) (a b : Z) :
  (inject_Z a <= x <= inject_Z b)%Q → a ≤ Math_round x ≤ b.
Proof.
  intros [Ha Hb]. unfold Math_round. split.
  - rewrite <- (Qfloor_Z a). apply Qfloor_resp_le.
    eapply Qle_trans; [exact Ha|].
    rewrite <- (Qplus_0_r x) at 1. apply Qplus_le_r. done.
  - assert (Qfloor (inject_Z b + (1 # 2)) = b) as <-.
    { unfold Qfloor, Qplus, inject_Z; simpl.
      rewrite Z.mul_1_r. Z.div_mod_to_equations. lia. }
    apply Qfloor_resp_le. apply Qplus_le_l. done.
Qed.

Section ScorerFacts.

Variable fold : jsstring -> jsstring.
Variable fold_undefined : option jsstring.
Variable toLowerCase : jsstring -> jsstring.

Let folded := fold_toLowerCase fold fold_undefined toLowerCase.
Let loop := computeScore_loop fold fold_undefined toLowerCase.

(** Without a token equal to the query the loop never reaches 99. *)
Lemma computeScore_loop_no_match node q words score :
  (0 <= score <= 98)%Q → q ∉ words →
  ∃ z, loop node q words score = Some z ∧ 0 ≤ z ≤ 98.
Proof.
  revert score; induction words as [|word words IH]; intros score Hs Hq.
  - eexists; split; [reflexivity|]. by apply (Math_round_bounds _ 0 98).
  - apply not_elem_of_cons in Hq as [Hne Hq]. simpl.
    destruct (computeWordScore_bounds word q) as [H0 H98]; [done|].
    assert (0 <= Qmax score (computeWordScore word q) <= 98)%Q as Hs'.
    { split; [|apply Q.max_lub; tauto].
      eapply Qle_trans; [|apply Q.le_max_r]. done. }
    destruct (Qeq_bool _ 99) eqn:E.
    + apply Qeq_bool_iff in E. rewrite E in Hs'. by destruct Hs' as [_ []].
    + by apply IH.
Qed.

(** Once the running score is 99 and the whole-word test has failed, the
    loop ends on 99. *)
Lemma computeScore_loop_99 node q words score l g :
  folded (v node) = Some l → l ≠ q → folded (gloss node) = Some g → g ≠ q →
  score == 99 → loop node q words score = Some 99.
Proof.
  intros Hl Hlq Hg Hgq. revert score.
  induction words as [|word words IH]; intros score Hs; simpl.
  - unfold Math_round. by rewrite Hs.
  - assert (Qmax score (computeWordScore word q) == 99) as Hm.
    { rewrite Hs. apply Q.max_l. apply computeWordScore_le_99. }
    rewrite (proj2 (Qeq_bool_iff _ _) Hm).
    fold folded. rewrite Hl, Hg. simpl.
    rewrite !decide_False by done. by apply IH.
Qed.

(** With a token equal to the query the result is decided by the test on
    the whole headword and gloss. *)
Lemma computeScore_loop_match node q words score :
  (0 <= score <= 98)%Q → q ∈ words →
  loop node q words score =
    (l ← folded (v node);
     if decide (l = q) then Some 100
     else g ← folded (gloss node);
          if decide (g = q) then Some 100 else Some 99).
Proof.
  revert score; induction words as [|word words IH]; intros score Hs Hq.
  - by apply elem_of_nil in Hq.
  - simpl. destruct (decide (word = q)) as [->|Hne].
    + rewrite computeWordScore_exact.
      assert (Qmax score 99 == 99) as Hm.
      { apply Q.max_r. eapply Qle_trans; [apply Hs | done]. }
      rewrite (proj2 (Qeq_bool_iff _ _) Hm). fold folded.
      destruct (folded (v node)) as [l|] eqn:Hl; simpl; [|done].
      destruct (decide (l = q)); [done|].
      destruct (folded (gloss node)) as [g|] eqn:Hg; simpl; [|done].
      destruct (decide (g = q)); [done|].
      eapply computeScore_loop_99; eauto.
    + apply elem_of_cons in Hq as [->|Hq]; [done|].
      destruct (computeWordScore_bounds word q) as [H0 H98]; [done|].
      assert (0 <= Qmax score (computeWordScore word q) <= 98)%Q as Hs'.
      { split; [|apply Q.max_lub; tauto].
        eapply Qle_trans; [|apply Q.le_max_r]. done. }
      destruct (Qeq_bool _ 99) eqn:E.
      * apply Qeq_bool_iff in E. rewrite E in Hs'. by destruct Hs' as [_ []].
      * by apply IH.
Qed.

(** C1 (amended): [computeScore] returns 100 exactly when some token
    equals the query and, in addition, the folded lower-cased headword or
    gloss as a whole equals the query; an exact token match alone scores 99;
    without an exact token match the score is at most 98, hence below 100. *)
Theorem computeScore_100_iff node q :
  (computeScore fold fold_undefined toLowerCase node q = Some 100 ↔
     q ∈ index node ∧
     (folded (v node) = Some q ∨
      (is_Some (folded (v node)) ∧ folded (gloss node) = Some q)))
  ∧ (∀ l g, q ∈ index node →
       folded (v node) = Some l → l ≠ q →
       folded (gloss node) = Some g → g ≠ q →
       computeScore fold fold_undefined toLowerCase node q = Some 99)
  ∧ (q ∉ index node →
       ∃ z, computeScore fold fold_undefined toLowerCase node q = Some z
            ∧ 0 ≤ z ≤ 98).
Proof.
  unfold computeScore. fold loop. split; [|split].
  - destruct (decide (q ∈ index node)) as [Hin|Hout].
    + rewrite computeScore_loop_match by done. fold folded.
      destruct (folded (v node)) as [l|]; simpl.
      * destruct (decide (l = q)) as [->|Hl]; [naive_solver|].
        destruct (folded (gloss node)) as [g|]; simpl.
        -- destruct (decide (g = q)) as [->|Hg]; [naive_solver|].
           split; [done|]. intros [_ [?|[_ ?]]]; congruence.
        -- split; [done|]. intros [_ [?|[_ ?]]]; congruence.
      * split; [done|]. intros [_ [?|[[? ?] _]]]; congruence.
    + destruct (computeScore_loop_no_match node q (index node) 0) as (z & Hz & Hb);
        [done..|].
      fold loop in Hz. rewrite Hz. split; [|tauto].
      intros [= ->]. lia.
  - intros l g Hin Hl Hlq Hg Hgq.
    rewrite computeScore_loop_match by done. fold folded.
    rewrite Hl, Hg. simpl. by rewrite !decide_False.
  - intros Hout. by apply computeScore_loop_no_match.
Qed.

(** C4 (amended): for a token [t] other than [q] that starts with [q], the
    per-token score is [98 * len(q) / len(t)], and an entry with that one
    token scores its rounding; the query "ara" against an entry whose only
    token is "aragorn" scores round(98 * 3 / 7) = 42. *)
Theorem computeWordScore_prefix :
  (∀ t q, t ≠ q → startsWith t q = true →
     computeWordScore t q == inject_Z (98 * len q) / inject_Z (len t))
  ∧ (∀ node t q, index node = [t] → t ≠ q → startsWith t q = true →
       computeScore fold fold_undefined toLowerCase node q
       = Some (Math_round (inject_Z (98 * len q) / inject_Z (len t))))
  ∧ (∀ node, index node = [js "aragorn"] →
       computeScore fold fold_undefined toLowerCase node (js "ara") = Some 42).
Proof.
  assert (∀ t q, t ≠ q → startsWith t q = true →
            computeWordScore t q == inject_Z (98 * len q) / inject_Z (len t)) as H.
  { intros t q Hne Hs. unfold computeWordScore.
    rewrite decide_False by done. by rewrite Hs. }
  split; [exact H|]. split.
  - intros node t q Hi Hne Hs. unfold computeScore. rewrite Hi. simpl.
    destruct (computeWordScore_bounds t q Hne) as [H0 H98].
    assert (Qmax 0 (computeWordScore t q) == computeWordScore t q) as Hm
      by (by apply Q.max_r).
    destruct (Qeq_bool _ 99) eqn:E.
    + apply Qeq_bool_iff in E. rewrite Hm in E. rewrite E in H98.
      by destruct H98.
    + unfold Math_round. by rewrite Hm, H.
  - intros node Hi. unfold computeScore. rewrite Hi. reflexivity.
Qed.

End ScorerFacts.

(** C1, counterexample: "tower" is a token of the entry, yet the score is 99. *)
Lemma exact_token_scores_99 :
  js "tower" ∈ index minas_tirith
  ∧ computeScore fold_ascii None toLowerCase_latin minas_tirith (js "tower")
    = Some 99.
Proof. split; [|reflexivity]. unfold minas_tirith; simpl. set_solver. Qed.

(** C4, counterexample: the prefix score of "ara" in "aragorn" is not
    [100 * 3 / 7], and the entry scores 42, not 43. *)
Lemma prefix_score_aragorn :
  ¬ computeWordScore (js "aragorn") (js "ara") == inject_Z (100 * 3) / inject_Z 7
  ∧ computeScore fold_ascii None toLowerCase_latin aragorn (js "ara") = Some 42.
Proof. split; [|reflexivity]. intros H. vm_compute in H. discriminate H. Qed.

(** ** Tokenizer and compiler *)

(** Induction on a document, the children of a node being covered. *)
Lemma XmlElement_children_ind (P : XmlElement → Prop) :
  (∀ n a t cs, Forall P cs → P (XmlNode n a t cs)) → ∀ node, P node.
Proof.
  intros H. fix IH 1. intros [n a t cs]. apply H.
  induction cs as [|c cs IHcs]; constructor; [apply IH | exact IHcs].
Qed.

Lemma clamp_negative s i : i ≤ 0 → clamp s i = 0%nat.
Proof. intros Hi. unfold clamp, len. lia. Qed.

Lemma substring_0_neg s : substring s 0 (-1) = [].
Proof. unfold substring. by rewrite !clamp_negative by lia. Qed.

Lemma substring_from_1 c s : substring_from (c :: s) 1 = s.
Proof.
  unfold substring_from, substring, clamp, len. cbn [length].
  replace (Z.to_nat (Z.min (Z.max 1 0) (Z.of_nat (S (length s))))) with 1%nat by lia.
  replace (Z.to_nat (Z.min (Z.max (Z.of_nat (S (length s))) 0) (Z.of_nat (S (length s)))))
    with (S (length s)) by lia.
  replace (Nat.max 1 (S (length s)) - Nat.min 1 (S (length s)))%nat with (length s) by lia.
  replace (Nat.min 1 (S (length s))) with 1%nat by lia.
  simpl. by rewrite take_ge.
Qed.

Lemma indexWord_nonempty word w : indexWord word = Some w → w ≠ [].
Proof.
  unfold indexWord. destruct word as [|firstChar rest]; [done|].
  set (w1 := if isLeadingMarker firstChar then _ else _).
  set (w2 := match last w1 with Some _ => _ | None => _ end).
  destruct (bool_decide (w2 ≠ [])) eqn:E; simpl; [|done].
  apply bool_decide_eq_true in E.
  destruct (negb (existsb isDigit w2) && negb (bool_decide (w2 ∈ STOP_WORDS)));
    [|done].
  by intros [= <-].
Qed.

(** C5, the code: a candidate word that ends in [\]] or [)] contributes no
    token, because [word.substring(0, -1)] is the empty string. *)
Theorem indexWord_closing_bracket word c :
  last word = Some c → isClosingBracket c = true → indexWord word = None.
Proof.
  intros Hlast Hc. unfold indexWord.
  destruct word as [|firstChar rest]; [done|].
  assert (last (if isLeadingMarker firstChar
                then substring_from (firstChar :: rest) 1
                else firstChar :: rest) = Some c) as ->.
  { destruct (isLeadingMarker firstChar) eqn:Hm; [|done].
    rewrite substring_from_1. destruct rest as [|d rest]; [|done].
    simpl in Hlast. injection Hlast as ->.
    unfold isClosingBracket in Hc.
    apply orb_true_iff in Hc as [->%N.eqb_eq| ->%N.eqb_eq];
      vm_compute in Hm; discriminate Hm. }
  by rewrite Hc, substring_0_neg.
Qed.

(** C5, at the candidate word "ruler)", and in an index: the gloss
    "king (ruler)" yields the token "king" only. *)
Lemma indexWord_closing_bracket_witness :
  indexWord (js "ruler)") = None
  ∧ computeIndex fold_ascii None toLowerCase_latin
      (word_node "aran" "king (ruler)" []) = Some [js "aran"; js "king"].
Proof.
  split; [|reflexivity].
  apply (indexWord_closing_bracket (js "ruler)") 41%N); reflexivity.
Defined.

Section CompilerFacts.

Variable fold : jsstring -> jsstring.
Variable fold_undefined : option jsstring.
Variable toLowerCase : jsstring -> jsstring.

(** Every token of an index is a non-empty string. *)
Lemma computeIndex_nonempty node idx :
  computeIndex fold fold_undefined toLowerCase node = Some idx →
  Forall (λ word, word ≠ []) idx.
Proof.
  unfold computeIndex. intros H.
  destruct (fold_toLowerCase _ _ _ _) as [lemma|]; simpl in H; [|done].
  injection H as <-. apply Forall_app. split.
  - apply Forall_forall. by intros w [Hw _]%list_elem_of_filter.
  - apply Forall_forall. intros w (phrase & Hw & _)%list_elem_of_bind.
    apply list_elem_of_omap in Hw as (word & _ & Hw).
    by eapply indexWord_nonempty.
Qed.

Lemma compileDictionaryRecursive_tokens node entries :
  compileDictionaryRecursive fold fold_undefined toLowerCase node = Some entries →
  Forall (λ e, Forall (λ word, word ≠ []) (index e)) entries.
Proof.
  revert entries. induction node as [n a t cs IH] using XmlElement_children_ind.
  intros entries H. simpl in H.
  match type of H with
  | (?own ≫= _) = _ => destruct own as [result|] eqn:Hown; simpl in H; [|done]
  end.
  match type of H with
  | (?kids ≫= _) = _ => destruct kids as [rest|] eqn:Hkids; simpl in H; [|done]
  end.
  injection H as <-. apply Forall_app. split.
  - destruct (bool_decide (n = js "word")); [|by simplify_eq].
    destruct (bool_decide (_ ∉ excluded_pos)); [|by simplify_eq].
    unfold makeEntry in Hown.
    destruct (computeIndex _ _ _ _) as [idx|] eqn:Hidx; simpl in Hown; [|done].
    injection Hown as <-. apply Forall_singleton. simpl.
    by eapply computeIndex_nonempty.
  - clear Hown. revert rest Hkids.
    induction IH as [|c cs Hc _ IHcs]; intros rest Hkids.
    + by injection Hkids as <-.
    + destruct (compileDictionaryRecursive _ _ _ c) as [r|] eqn:Hr;
        simpl in Hkids; [|done].
      match type of Hkids with
      | (?kids ≫= _) = _ => destruct kids as [rs|] eqn:Hrs; simpl in Hkids; [|done]
      end.
      injection Hkids as <-. apply Forall_app. split; [by apply Hc | by apply IHcs].
Qed.

(** The empty query scores 0 against non-empty tokens. *)
Lemma computeWordScore_empty_query word :
  word ≠ [] → computeWordScore word [] == 0.
Proof.
  intros Hw. unfold computeWordScore. rewrite decide_False by done.
  destruct word; [done|]. cbn [startsWith].
  change (inject_Z (98 * len [])) with 0%Q. unfold Qdiv. apply Qmult_0_l.
Qed.

Lemma computeScore_loop_empty_query node words score :
  Forall (λ word, word ≠ []) words → score == 0 →
  computeScore_loop fold fold_undefined toLowerCase node [] words score = Some 0.
Proof.
  intros Hw. revert score. induction Hw as [|word words Hne _ IH]; intros score Hs.
  - simpl. unfold Math_round. by rewrite Hs.
  - simpl.
    assert (Qmax score (computeWordScore word []) == 0) as Hm.
    { rewrite Hs, computeWordScore_empty_query by done. apply Q.max_id. }
    assert (Qeq_bool (Qmax score (computeWordScore word [])) 99 = false) as ->.
    { destruct (Qeq_bool _ 99) eqn:E; [|done].
      apply Qeq_bool_iff in E. rewrite Hm in E. discriminate E. }
    by apply IH.
Qed.

Lemma matchQuery_loop_empty_query table entries result :
  Forall (λ e, Forall (λ word, word ≠ []) (index e)) entries →
  matchQuery_loop fold fold_undefined toLowerCase table [] entries result
  = Some result.
Proof.
  intros He. revert result; induction He as [|e entries Hidx _ IH]; intros result;
    [done|].
  simpl. unfold computeScore.
  rewrite computeScore_loop_empty_query by done. simpl. apply IH.
Qed.

(** C10: against a compiled dictionary every per-token score of the empty
    query is 0, and [matchQuery("")] returns the empty list. *)
Theorem empty_query_matches_nothing root table0 dictionary table1 table :
  compileDictionary fold fold_undefined toLowerCase root table0
  = Some (dictionary, table1) →
  Forall (λ e, Forall (λ word, computeWordScore word [] == 0) (index e)) dictionary
  ∧ matchQuery fold fold_undefined toLowerCase table (Some dictionary) [] = Some [].
Proof.
  unfold compileDictionary. intros H.
  destruct (compileDictionaryRecursive _ _ _ root) as [es|] eqn:Hes;
    simpl in H; [|done].
  injection H as <- _.
  pose proof (compileDictionaryRecursive_tokens _ _ Hes) as Htok. split.
  - eapply Forall_impl; [exact Htok|]. intros e He.
    eapply Forall_impl; [exact He|]. apply computeWordScore_empty_query.
  - simpl. by apply matchQuery_loop_empty_query.
Qed.

End CompilerFacts.

(** C10, at the lexicon of two words. *)
Lemma empty_query_matches_nothing_witness :
  compileDictionary fold_ascii None toLowerCase_latin lexicon ∅
  = Some (lexicon_entries, lexicon_table)
  ∧ matchQuery fold_ascii None toLowerCase_latin lexicon_table
      (Some lexicon_entries) [] = Some [].
Proof.
  assert (compileDictionary fold_ascii None toLowerCase_latin lexicon ∅
          = Some (lexicon_entries, lexicon_table)) as H
    by (vm_compute; reflexivity).
  split; [exact H|].
  exact (proj2 (empty_query_matches_nothing fold_ascii None toLowerCase_latin
                  lexicon ∅ lexicon_entries lexicon_table lexicon_table H)).
Defined.

(** ** Tengwar correction *)

Lemma substr_prefix (pre v : jsstring) :
  substr (pre ++ v) 0 (len pre) = pre.
Proof.
  unfold substr. rewrite clamp_negative by lia.
  replace (Z.to_nat (Z.max (len pre) 0)) with (length pre) by (unfold len; lia).
  by rewrite drop_0, take_app_length.
Qed.

Lemma substr_from_suffix (pre : jsstring) c v :
  substr_from (pre ++ c :: v) (len pre + 1) = v.
Proof.
  unfold substr_from.
  replace (clamp (pre ++ c :: v) (len pre + 1)) with (length (pre ++ [c]))
    by (unfold clamp, len; rewrite !length_app; simpl; lia).
  by rewrite (cons_middle c pre v), app_assoc, drop_app_length.
Qed.

Lemma startsWith_single d w x : startsWith (d :: w) [x] = (x =? d)%N.
Proof. simpl. destruct w; apply andb_true_r. Qed.

Section TengwarFacts.

Variable toLowerCase : jsstring -> jsstring.

Lemma correctTengwar_unhinted node :
  attr_v (attr node) = None ∨ attr_v (attr node) = Some []
  ∨ attr_tengwar (attr node) = None ∨ attr_tengwar (attr node) = Some [] →
  correctTengwar toLowerCase node = attr_v (attr node).
Proof.
  unfold correctTengwar.
  destruct (attr_v (attr node)) as [[|c v]|], (attr_tengwar (attr node)) as [[|d t]|];
    intuition discriminate.
Qed.

Lemma correctTengwar_nasal node v hint :
  attr_v (attr node) = Some v → v ≠ [] →
  attr_tengwar (attr node) = Some hint →
  hint = [ntilde] ∨ hint = [ntilde] ++ js "-" →
  correctTengwar toLowerCase node = Some (replace_initial_nasal v).
Proof.
  intros Hv Hne Ht Hhint. unfold correctTengwar. rewrite Hv, Ht.
  destruct v as [|c v]; [done|].
  destruct Hhint as [-> | ->]; simpl;
    rewrite substring_from_1;
    (destruct (c =? 110)%N eqn:E1;
     [apply N.eqb_eq in E1 as ->; done|]);
    (destruct (c =? 78)%N eqn:E2;
     [apply N.eqb_eq in E2 as ->; done|]);
    apply N.eqb_neq in E1, E2;
    rewrite !bool_decide_eq_false_2 by congruence; done.
Qed.

Lemma correctTengwar_northus node v :
  attr_v (attr node) = Some v → v ≠ [] →
  attr_tengwar (attr node) = Some northus →
  correctTengwar toLowerCase node = Some Northus.
Proof.
  intros Hv Hne Ht. unfold correctTengwar. rewrite Hv, Ht.
  by destruct v.
Qed.

(** Where lower-casing works unit by unit and yields [s] from [s] and [S]
    only, the sibilant hint replaces the first [s] or [S]. *)
Lemma sibilant_replaced (f : N → N) (pre v : jsstring) :
  (∀ c, c ∈ v → f c = 115%N ↔ c = 115%N ∨ c = 83%N) →
  (let index := indexOf_from (len pre) (f <$> v) (js "s") in
   if 0 <=? index then
     substr (pre ++ v) 0 index
     ++ (if bool_decide ((pre ++ v) !! Z.to_nat index = Some 83%N)
         then [Thorn] else [thorn])
     ++ substr_from (pre ++ v) (index + 1)
   else pre ++ v)
  = pre ++ replace_first_sibilant v.
Proof.
  revert pre; induction v as [|c v IH]; intros pre Hf; [done|].
  change (js "s") with [115%N]. rewrite fmap_cons.
  cbn [indexOf_from replace_first_sibilant]. rewrite startsWith_single.
  destruct (115 =? f c)%N eqn:E.
  - apply N.eqb_eq in E. symmetry in E. apply Hf in E; [|left].
    cbn zeta. rewrite (proj2 (Z.leb_le _ _)) by (unfold len; lia).
    rewrite substr_prefix, substr_from_suffix.
    replace (Z.to_nat (len pre)) with (length pre) by (unfold len; lia).
    rewrite list_lookup_middle by done.
    destruct E as [-> | ->]; done.
  - apply N.eqb_neq in E.
    assert (c ≠ 115%N ∧ c ≠ 83%N) as [H1 H2].
    { split; intros ->; apply E; symmetry; apply Hf; [left|by left|left|by right]. }
    rewrite (proj2 (N.eqb_neq _ _) H1), (proj2 (N.eqb_neq _ _) H2).
    specialize (IH (pre ++ [c])).
    replace (len (pre ++ [c])) with (len pre + 1) in IH
      by (unfold len; rewrite length_app; simpl; lia).
    rewrite <- !app_assoc in IH. simpl in IH. apply IH.
    intros d Hd. apply Hf. by right.
Qed.

Lemma correctTengwar_sibilant node v hint f :
  attr_v (attr node) = Some v → v ≠ [] →
  attr_tengwar (attr node) = Some hint →
  hint = [thorn] ∨ hint = [thorn] ++ js "-" →
  toLowerCase v = f <$> v →
  (∀ c, c ∈ v → f c = 115%N ↔ c = 115%N ∨ c = 83%N) →
  correctTengwar toLowerCase node = Some (replace_first_sibilant v).
Proof.
  intros Hv Hne Ht Hhint Hlow Hf. unfold correctTengwar. rewrite Hv, Ht.
  destruct v as [|c v]; [done|].
  pose proof (sibilant_replaced f [] (c :: v) Hf) as H.
  cbn zeta in H. rewrite <- Hlow in H. simpl app in H.
  change (len []) with 0 in H. fold (indexOf (toLowerCase (c :: v)) (js "s")) in H.
  destruct Hhint as [-> | ->]; simpl;
    destruct (0 <=? indexOf (toLowerCase (c :: v)) (js "s")); by rewrite <- H.
Qed.

End TengwarFacts.

Lemma lowerLatin_s c : lowerLatin c = 115%N ↔ c = 115%N ∨ c = 83%N.
Proof.
  unfold lowerLatin.
  destruct (65 <=? c)%N eqn:E1, (c <=? 90)%N eqn:E2,
           (192 <=? c)%N eqn:E3, (c <=? 222)%N eqn:E4, (c =? 215)%N eqn:E5;
    simpl;
    rewrite ?N.leb_le, ?N.leb_gt, ?N.eqb_eq, ?N.eqb_neq in *; lia.
Qed.

Lemma toLowerCase_latin_unitwise v :
  304%N ∉ v → toLowerCase_latin v = lowerLatin <$> v.
Proof.
  unfold toLowerCase_latin.
  induction v as [|c v IH]; [done|]. intros [Hc Hv]%not_elem_of_cons.
  cbn. unfold lowerUnit at 1.
  rewrite (proj2 (N.eqb_neq _ _)) by done. simpl. f_equal. by apply IH.
Qed.

(** For headwords without U+0130 the sibilant hint does what the
    specification says. *)
Lemma correctTengwar_sibilant_latin node v hint :
  attr_v (attr node) = Some v → v ≠ [] → 304%N ∉ v →
  attr_tengwar (attr node) = Some hint →
  hint = [thorn] ∨ hint = [thorn] ++ js "-" →
  correctTengwar toLowerCase_latin node = Some (replace_first_sibilant v).
Proof.
  intros Hv Hne H304 Ht Hhint.
  eapply correctTengwar_sibilant; [done..| |].
  - by apply toLowerCase_latin_unitwise.
  - intros c _. apply lowerLatin_s.
Qed.

(** C8, the code at a failing input: for the headword U+0130 "s" with the
    hint þ the lower-cased copy is one unit longer, the position of its "s"
    lies past the end of the headword, and the glyph is appended instead of
    replacing the "s". *)
Theorem correctTengwar_dotted_capital_i :
  toLowerCase_latin [304; 115]%N = [105; 775; 115]%N
  ∧ correctTengwar toLowerCase_latin (hinted_node [304; 115]%N [thorn])
    = Some [304; 115; thorn]%N.
Proof. split; reflexivity. Qed.

(** ** The short-gloss table *)

Lemma addShortDefinition_eq table entry :
  addShortDefinition table entry =
  match short_gloss_of entry with
  | Some g =>
      match table !! v entry with
      | None => <[v entry := g]> table
      | Some def =>
          if bool_decide (def ≠ g) then <[v entry := def ++ separator ++ g]> table
          else table
      end
  | None => table
  end.
Proof.
  unfold addShortDefinition, short_gloss_of.
  destruct (gloss entry) as [[|c g]|]; try done.
  by destruct (bool_decide (c :: g ≠ unglossed)).
Qed.

(** A pass over entries with one gloss per headword: every value of the
    table is the gloss of an entry of that headword, values once set stay,
    and every glossed entry finds its gloss in the table. *)
Lemma first_pass_single_gloss (all entries : list DictionaryEntry)
    (table : gmap (option jsstring) jsstring) :
  single_gloss all → entries ⊆ all →
  (∀ k d, table !! k = Some d →
     ∃ e, e ∈ all ∧ v e = k ∧ short_gloss_of e = Some d) →
  (∀ k d, foldl addShortDefinition table entries !! k = Some d →
     ∃ e, e ∈ all ∧ v e = k ∧ short_gloss_of e = Some d)
  ∧ (∀ k d, table !! k = Some d →
       foldl addShortDefinition table entries !! k = Some d)
  ∧ (∀ e g, e ∈ entries → short_gloss_of e = Some g →
       foldl addShortDefinition table entries !! v e = Some g).
Proof.
  intros Hsingle. revert table.
  induction entries as [|e entries IH]; intros table Hsub Htab.
  - split; [done|]. split; [done|]. intros e g He. by apply elem_of_nil in He.
  - assert (e ∈ all) as He by (apply Hsub; left).
    assert (entries ⊆ all) as Hsub' by (intros x Hx; apply Hsub; by right).
    simpl.
    assert ((∀ k d, addShortDefinition table e !! k = Some d →
               ∃ e', e' ∈ all ∧ v e' = k ∧ short_gloss_of e' = Some d)
            ∧ (∀ k d, table !! k = Some d →
                 addShortDefinition table e !! k = Some d)
            ∧ (∀ g, short_gloss_of e = Some g →
                 addShortDefinition table e !! v e = Some g)) as (H1 & H2 & H3).
    { rewrite addShortDefinition_eq.
      destruct (short_gloss_of e) as [g|] eqn:Hg; [|done].
      destruct (table !! v e) as [def|] eqn:Hdef.
      - destruct (Htab _ _ Hdef) as (e' & He' & Hv & Hg').
        assert (def = g) as -> by (by eapply (Hsingle e' e)).
        rewrite bool_decide_eq_false_2 by (intros Hn; by apply Hn).
        split; [done|]. split; [done|]. by intros ? [= <-].
      - split; [|split].
        + intros k d. destruct (decide (k = v e)) as [->|Hk].
          * rewrite lookup_insert_eq. intros [= <-]. by exists e.
          * rewrite lookup_insert_ne by done. apply Htab.
        + intros k d Hk. rewrite lookup_insert_ne; [done|]. congruence.
        + intros ? [= <-]. by rewrite lookup_insert_eq. }
    destruct (IH (addShortDefinition table e) Hsub' H1) as (I1 & I2 & I3).
    split; [done|]. split; [by intros k d Hk; apply I2, H2|].
    intros e' g [->|He']%elem_of_cons Hg.
    + by apply I2, H3.
    + by apply I3.
Qed.

(** A pass over entries that all find their gloss in the table changes
    nothing. *)
Lemma second_pass_identity (entries : list DictionaryEntry)
    (table : gmap (option jsstring) jsstring) :
  (∀ e g, e ∈ entries → short_gloss_of e = Some g → table !! v e = Some g) →
  foldl addShortDefinition table entries = table.
Proof.
  induction entries as [|e entries IH]; intros H; [done|]. simpl.
  assert (addShortDefinition table e = table) as ->.
  { rewrite addShortDefinition_eq.
    destruct (short_gloss_of e) as [g|] eqn:Hg; [|done].
    rewrite (H e g) by (done || left).
    by rewrite bool_decide_eq_false_2 by (intros Hn; by apply Hn). }
  apply IH. intros e' g He'. apply H. by right.
Qed.

(** One entry never shortens a gloss of the table, and lengthens the gloss
    of its headword when it changes the table. *)
Lemma addShortDefinition_grows (table : gmap (option jsstring) jsstring) entry k :
  (gloss_length table k ≤ gloss_length (addShortDefinition table entry) k)%nat
  ∧ (addShortDefinition table entry ≠ table →
     (gloss_length table (v entry)
      < gloss_length (addShortDefinition table entry) (v entry))%nat).
Proof.
  rewrite addShortDefinition_eq. unfold gloss_length, short_gloss_of.
  destruct (gloss entry) as [[|c g]|]; try done.
  destruct (bool_decide (c :: g ≠ unglossed)); [|done].
  destruct (table !! v entry) as [def|] eqn:Hdef.
  - case_bool_decide; [|done]. split.
    + destruct (decide (k = v entry)) as [->|Hk].
      * rewrite lookup_insert_eq, Hdef. simpl. rewrite length_app. lia.
      * by rewrite lookup_insert_ne.
    + intros _. rewrite lookup_insert_eq. simpl.
      rewrite !length_app. simpl. lia.
  - split.
    + destruct (decide (k = v entry)) as [->|Hk].
      * rewrite lookup_insert_eq, Hdef. simpl. lia.
      * by rewrite lookup_insert_ne.
    + intros _. rewrite lookup_insert_eq. simpl. lia.
Qed.

Lemma foldl_addShortDefinition_grows (entries : list DictionaryEntry)
    (table : gmap (option jsstring) jsstring) k :
  (gloss_length table k
   ≤ gloss_length (foldl addShortDefinition table entries) k)%nat.
Proof.
  revert table; induction entries as [|e entries IH]; intros table; [done|].
  simpl. etrans; [|apply IH]. apply addShortDefinition_grows.
Qed.

(** A pass that leaves the table as it found it met, for every glossed
    entry, that very gloss under the entry's headword. *)
Lemma pass_identity_inv (entries : list DictionaryEntry)
    (table : gmap (option jsstring) jsstring) :
  foldl addShortDefinition table entries = table →
  ∀ e g, e ∈ entries → short_gloss_of e = Some g → table !! v e = Some g.
Proof.
  induction entries as [|e entries IH]; intros Hfix e' g He' Hg.
  { by apply elem_of_nil in He'. }
  simpl in Hfix.
  assert (addShortDefinition table e = table) as Hstep.
  { destruct (decide (addShortDefinition table e = table)) as [|Hne]; [done|].
    apply (addShortDefinition_grows table e (v e)) in Hne.
    pose proof (foldl_addShortDefinition_grows entries
                  (addShortDefinition table e) (v e)) as Hle.
    rewrite Hfix in Hle. lia. }
  rewrite Hstep in Hfix.
  apply elem_of_cons in He' as [->|He']; [|by eapply IH].
  clear IH Hfix. rewrite addShortDefinition_eq, Hg in Hstep.
  destruct (table !! v e) as [def|] eqn:Hdef.
  - case_bool_decide as Hd.
    + apply (f_equal (λ t, t !! v e)) in Hstep.
      rewrite lookup_insert_eq, Hdef in Hstep. injection Hstep as Hstep.
      apply (f_equal length) in Hstep. rewrite !length_app in Hstep.
      simpl in Hstep. lia.
    + f_equal. by destruct (decide (def = g)).
  - apply (f_equal (λ t, t !! v e)) in Hstep.
    by rewrite lookup_insert_eq, Hdef in Hstep.
Qed.

Section CompileTwice.

Variable fold : jsstring -> jsstring.
Variable fold_undefined : option jsstring.
Variable toLowerCase : jsstring -> jsstring.

(** C6 (amended): compiling the same tree again yields the same entry list,
    whatever the table holds; a second run over the table left by a first
    run from the empty table leaves the table as it is if and only if no
    headword has two different glosses. *)
Theorem compile_twice root table0 entries table1 :
  compileDictionary fold fold_undefined toLowerCase root table0
  = Some (entries, table1) →
  (∀ table, fst <$> compileDictionary fold fold_undefined toLowerCase root table
            = Some entries)
  ∧ (table0 = ∅ →
     (compileDictionary fold fold_undefined toLowerCase root table1
      = Some (entries, table1) ↔ single_gloss entries)).
Proof.
  unfold compileDictionary. intros H.
  destruct (compileDictionaryRecursive _ _ _ root) as [es|]; simpl in *; [|done].
  injection H as <- <-. split; [done|]. intros ->. split.
  - intros [= Hfix] e1 e2 g1 g2 He1 He2 Hg1 Hg2 Hv.
    pose proof (pass_identity_inv _ _ Hfix e1 g1 He1 Hg1) as H1.
    pose proof (pass_identity_inv _ _ Hfix e2 g2 He2 Hg2) as H2.
    rewrite Hv in H1. congruence.
  - intros Hsingle. do 2 f_equal. apply second_pass_identity.
    by apply (first_pass_single_gloss es es ∅).
Qed.

End CompileTwice.

(** C6, counterexample: the headword "ar" has the glosses "noble" and
    "beside"; the first run leaves "noble / beside" in the table, the second
    run over that table appends both again. *)
Lemma second_compile_grows_table :
  (compileDictionary fold_ascii None toLowerCase_latin lexicon_two_glosses ∅
     ≫= λ '(_, table1),
   compileDictionary fold_ascii None toLowerCase_latin lexicon_two_glosses table1
     ≫= λ '(_, table2),
   Some (table1 !! Some (js "ar"), table2 !! Some (js "ar")))
  = Some (Some (js "noble / beside"),
          Some (js "noble / beside / noble / beside")).
Proof. vm_compute. reflexivity. Qed.

(** C6, at the lexicon of two words with one gloss each. *)
Lemma compile_twice_witness :
  compileDictionary fold_ascii None toLowerCase_latin lexicon ∅
  = Some (lexicon_entries, lexicon_table)
  ∧ single_gloss lexicon_entries
  ∧ compileDictionary fold_ascii None toLowerCase_latin lexicon lexicon_table
    = Some (lexicon_entries, lexicon_table).
Proof.
  assert (compileDictionary fold_ascii None toLowerCase_latin lexicon ∅
          = Some (lexicon_entries, lexicon_table)) as H
    by (vm_compute; reflexivity).
  assert (single_gloss lexicon_entries) as Hs.
  { intros e1 e2 g1 g2 He1 He2 Hg1 Hg2 Hv.
    repeat (apply elem_of_cons in He1 as [->|He1]);
      [| |by apply elem_of_nil in He1];
      (repeat (apply elem_of_cons in He2 as [->|He2]);
       [| |by apply elem_of_nil in He2]);
      vm_compute in Hg1, Hg2, Hv; congruence. }
  split; [exact H|]. split; [exact Hs|].
  exact (proj2 (proj2 (compile_twice fold_ascii None toLowerCase_latin lexicon ∅
                         lexicon_entries lexicon_table H) eq_refl) Hs).
Defined.

(** ** Query engine *)

Section QueryResults.

Variable fold : jsstring -> jsstring.
Variable fold_undefined : option jsstring.
Variable toLowerCase : jsstring -> jsstring.
Variable gShortDefinitions : gmap (option jsstring) jsstring.

Lemma matchQuery_loop_results q entries result results :
  matchQuery_loop fold fold_undefined toLowerCase gShortDefinitions q entries result
  = Some results →
  ∃ emitted,
    results = result ++ emitted
    ∧ (∀ e s, e ∈ entries →
         computeScore fold fold_undefined toLowerCase e q = Some s → (0 < s)%Z →
         result_for gShortDefinitions q e s ∈ emitted)
    ∧ (∀ r, r ∈ emitted →
         ∃ e, e ∈ entries
              ∧ computeScore fold fold_undefined toLowerCase e q = Some (score r)
              ∧ (0 < score r)%Z
              ∧ r = result_for gShortDefinitions q e (score r)).
Proof.
  revert result; induction entries as [|e entries IH]; intros result H.
  - injection H as <-. exists []. rewrite app_nil_r. split; [done|].
    split; [intros ? ? []%elem_of_nil | intros ? []%elem_of_nil].
  - simpl in H.
    destruct (computeScore _ _ _ e q) as [s|] eqn:Hs; simpl in H; [|done].
    destruct (0 <? s)%Z eqn:Hpos.
    + apply IH in H as (emitted & -> & Hin & Hout).
      exists (result_for gShortDefinitions q e s :: emitted).
      split; [by rewrite <- app_assoc|]. split.
      * intros e' s' [->|He']%elem_of_cons Hs' Hpos'.
        -- rewrite Hs in Hs'. injection Hs' as <-. left.
        -- right. by eapply Hin.
      * intros r [->|Hr]%elem_of_cons.
        -- exists e. split; [left|]. split; [done|]. split; [|done].
           by apply Z.ltb_lt.
        -- destruct (Hout r Hr) as (e' & He' & ?). exists e'. split; [by right|done].
    + apply IH in H as (emitted & -> & Hin & Hout).
      exists emitted. split; [done|]. split.
      * intros e' s' [->|He']%elem_of_cons Hs' Hpos'.
        -- rewrite Hs in Hs'. injection Hs' as <-. apply Z.ltb_ge in Hpos. lia.
        -- by eapply Hin.
      * intros r Hr. destruct (Hout r Hr) as (e' & He' & ?).
        exists e'. split; [by right|done].
Qed.

(** What [matchQuery] returns: one result for each entry that scores above
    0, the entry with its score, each element paired with the table's gloss
    for the query. *)
Lemma matchQuery_results dictionary q results :
  matchQuery fold fold_undefined toLowerCase gShortDefinitions (Some dictionary) q
  = Some results →
  (∀ e s, e ∈ dictionary →
     computeScore fold fold_undefined toLowerCase e q = Some s → (0 < s)%Z →
     result_for gShortDefinitions q e s ∈ results)
  ∧ (∀ r, r ∈ results →
       ∃ e, e ∈ dictionary
            ∧ computeScore fold fold_undefined toLowerCase e q = Some (score r)
            ∧ (0 < score r)%Z
            ∧ r = result_for gShortDefinitions q e (score r)).
Proof.
  simpl. intros H.
  by apply matchQuery_loop_results in H as (emitted & -> & Hin & Hout).
Qed.

End QueryResults.

(** C2, the code at a failing input: the element "ar" of "aran" is glossed
    "noble" in the table, yet the result for the query "aran" pairs it with
    the table's entry for the query, "king". *)
Theorem matchQuery_elements_take_gloss_of_query :
  compileDictionary fold_ascii None toLowerCase_latin lexicon ∅
  = Some (lexicon_entries, lexicon_table)
  ∧ lexicon_table !! Some (js "ar") = Some (js "noble")
  ∧ matchQuery fold_ascii None toLowerCase_latin lexicon_table
      (Some lexicon_entries) (js "aran")
    = Some [ {| spread := aran; score := 100;
                result_elements :=
                  [ {| elem_v := js "ar"; elem_gloss := js "king" |} ] |} ].
Proof. repeat split; vm_compute; reflexivity. Qed.

Section QueryFacts.

Variable fold : jsstring -> jsstring.
Variable fold_undefined : option jsstring.
Variable toLowerCase : jsstring -> jsstring.
Variable gShortDefinitions : gmap (option jsstring) jsstring.

(** C7 (amended): a dictionary with no entries answers every query with the
    empty list; when loading failed, which is when neither file could be
    read and compiled, the dictionary is [undefined] and every query throws
    instead of returning the empty list. *)
Theorem matchQuery_without_dictionary q :
  matchQuery fold fold_undefined toLowerCase gShortDefinitions (Some []) q
  = Some []
  ∧ (∀ json xml,
       loadDictionary fold fold_undefined toLowerCase json xml = None ↔
       json = None ∧
       ∀ root, xml = Some root →
         compileDictionaryRecursive fold fold_undefined toLowerCase root = None)
  ∧ (∀ json xml,
       loadDictionary fold fold_undefined toLowerCase json xml = None →
       matchQuery fold fold_undefined toLowerCase gShortDefinitions
         (loadDictionary fold fold_undefined toLowerCase json xml) q = None).
Proof.
  split; [done|]. split.
  - intros json xml. unfold loadDictionary, compileDictionary.
    destruct json as [d|]; [split; [done | by intros [? _]]|].
    destruct xml as [root|]; simpl.
    + destruct (compileDictionaryRecursive _ _ _ root) as [es|] eqn:E; simpl.
      * split; [done|]. intros [_ H]. specialize (H root eq_refl). congruence.
      * split; [|done]. intros _. split; [done|]. intros ? [= <-]. exact E.
    + split; [|done]. intros _. split; [done|]. by intros ?.
  - by intros json xml ->.
Qed.

End QueryFacts.

(** C7, counterexample: with neither file readable the query "gandalf"
    throws; it does not return the empty list. *)
Lemma query_after_failed_load_throws :
  matchQuery fold_ascii None toLowerCase_latin ∅
    (loadDictionary fold_ascii None toLowerCase_latin None None) (js "gandalf")
  = None.
Proof. reflexivity. Qed.

Local Close Scope Z_scope.

(** ** Ring cache: shape *)

Local Arguments Nat.modulo : simpl never.
Local Arguments RING_SIZE : simpl never.

Lemma array_set_lt {A} i (x : option A) a :
  i < length a → array_set i x a = <[i := x]> a.
Proof. intros H. unfold array_set. by rewrite (proj2 (Nat.ltb_lt _ _) H). Qed.

Lemma length_splice_insert {A} i (x : A) a :
  length (splice_insert i x a) = S (length a).
Proof.
  unfold splice_insert. rewrite length_app. simpl.
  rewrite length_take, length_drop. lia.
Qed.

Lemma emptyRing_ok : ring_ok emptyRing.
Proof. split; [apply length_replicate | unfold RING_SIZE; simpl; lia]. Qed.

Lemma addToRing_ok k v r : ring_ok r → ring_ok (addToRing k v r).
Proof.
  intros [Hl Hc]. split; simpl.
  - rewrite array_set_lt by lia. by rewrite length_insert.
  - apply Nat.mod_upper_bound. done.
Qed.

Lemma promote_ok i r :
  ring_ok r → i < length (gRing r) → ring_ok (promote i r).
Proof.
  intros [Hl Hc] Hi. unfold promote, splice_remove.
  destruct (decide (gRingIndex r ≠ i)) as [Hne|_]; split; simpl.
  - rewrite length_splice_insert, array_set_lt by lia.
    rewrite length_delete; rewrite ?length_insert; [lia|].
    apply lookup_lt_is_Some. rewrite length_insert. lia.
  - rewrite array_set_lt by lia.
    assert (length (delete i (<[gRingIndex r:=default None (gRing r !! i)]> (gRing r)))
            = RING_SIZE - 1) as ->.
    { rewrite length_delete; rewrite ?length_insert; [lia|].
      apply lookup_lt_is_Some. rewrite length_insert. lia. }
    destruct (gRingIndex r <? i) eqn:E; [|done].
    apply Nat.ltb_lt in E.
    pose proof (Nat.mod_upper_bound (gRingIndex r + 1) (RING_SIZE - 1)). lia.
  - done.
  - rewrite Hl. by apply Nat.mod_upper_bound.
Qed.

Lemma getFromRing_body_ok k i result r :
  ring_ok r → ring_ok (getFromRing_body k i result r).2.
Proof.
  intros Hr. unfold getFromRing_body.
  destruct (gRing r !! i) as [[slot|]|] eqn:E; simpl; try done.
  destruct (decide (key slot = k)); simpl; [|done].
  apply promote_ok; [done|]. by eapply lookup_lt_Some.
Qed.

Lemma getFromRing_loop_ok fuel k i result r :
  ring_ok r → ring_ok (getFromRing_loop fuel k i result r).2.
Proof.
  revert i result r; induction fuel as [|fuel IH]; intros i result r Hr; simpl; [done|].
  destruct (negb (truthy result) && (i <? length (gRing r))); [|done].
  pose proof (getFromRing_body_ok k i result r Hr) as Hb.
  destruct (getFromRing_body k i result r) as [result' r']. by apply IH.
Qed.

(** C9: [addToRing] and [getFromRing], hit or miss and wherever the cursor
    is, leave the ring with its [RING_SIZE] = 40 slots and the cursor within
    [0, RING_SIZE). *)
Theorem ring_shape_preserved r k v :
  ring_ok r →
  ring_ok (addToRing k v r) ∧ ring_ok (getFromRing k r).2.
Proof.
  intros Hr. split; [by apply addToRing_ok | by apply getFromRing_loop_ok].
Qed.

(** The loop of [getFromRing] needs no more passes than the ring has slots:
    more fuel changes nothing. *)
Lemma getFromRing_loop_enough fuel fuel' k i result r :
  ring_ok r → length (gRing r) - i ≤ fuel → fuel ≤ fuel' →
  getFromRing_loop fuel' k i result r = getFromRing_loop fuel k i result r.
Proof.
  revert fuel' i result r; induction fuel as [|fuel IH];
    intros fuel' i result r Hr Hf Hf'.
  - destruct fuel'; simpl; [done|].
    rewrite (proj2 (Nat.ltb_ge _ _)) by lia. by rewrite andb_false_r.
  - destruct fuel' as [|fuel']; [lia|]. simpl.
    destruct (negb (truthy result) && (i <? length (gRing r))); [|done].
    pose proof (getFromRing_body_ok k i result r Hr) as Hb.
    destruct (getFromRing_body k i result r) as [result' r'].
    apply IH; [done| |lia].
    destruct Hr as [Hl _], Hb as [Hl' _]. simpl in Hl'. lia.
Qed.

(** ** Ring cache: the recency order *)

Lemma view_rot A B n :
  n = length A → view {| gRing := A ++ B; gRingIndex := n |} = B ++ A.
Proof.
  intros ->. unfold view; simpl. by rewrite drop_app_length, take_app_length.
Qed.

(** The ring of a well-shaped state, cut at the cursor. *)
Lemma ring_cut r :
  ring_ok r →
  ∃ A x0 T, r = {| gRing := A ++ x0 :: T; gRingIndex := length A |}
            ∧ view r = x0 :: T ++ A.
Proof.
  intros [Hl Hc]. destruct r as [ring c]; simpl in *.
  destruct (lookup_lt_is_Some_2 ring c) as [x0 Hx]; [lia|].
  exists (take c ring), x0, (drop (S c) ring).
  assert (length (take c ring) = c) as Hlen by (rewrite length_take; lia).
  rewrite Hlen, take_drop_middle by done. split; [done|].
  unfold view; simpl. by rewrite (drop_S _ _ _ Hx).
Qed.

Lemma addToRing_view k v r :
  ring_ok r →
  view (addToRing k v r) = tail (view r) ++ [Some {| key := k; value := v |}].
Proof.
  intros Hr. destruct (ring_cut r Hr) as (A & x0 & T & -> & ->).
  destruct Hr as [Hl Hc]; simpl in *. rewrite length_app in Hl; simpl in Hl.
  unfold addToRing; simpl.
  rewrite array_set_lt by (rewrite length_app; simpl; lia).
  rewrite insert_app_r_alt, Nat.sub_diag by lia. simpl.
  destruct T as [|t T].
  - replace ((length A + 1) `mod` RING_SIZE) with 0
      by (rewrite <- Hl, Nat.Div0.mod_same; done).
    unfold view; simpl. by rewrite app_nil_r.
  - rewrite Nat.mod_small by (simpl in Hl; lia).
    rewrite (cons_middle _ A), app_assoc.
    rewrite view_rot by (rewrite length_app; simpl; lia).
    by rewrite <- app_assoc.
Qed.

(** A hit under the cursor: the cursor moves past the entry. *)
Lemma promote_view_cursor r x T :
  ring_ok r → view r = x :: T →
  view (promote (gRingIndex r) r) = T ++ [x].
Proof.
  intros Hr Hv. destruct (ring_cut r Hr) as (A & x0 & T' & -> & Hv').
  rewrite Hv in Hv'. injection Hv' as -> ->.
  destruct Hr as [Hl Hc]; simpl in *. rewrite length_app in Hl; simpl in Hl.
  unfold promote; simpl. rewrite decide_False by naive_solver.
  rewrite length_app; simpl.
  destruct T' as [|t T'].
  - simpl. replace (length A + 1) with (length A + 1) by done.
    rewrite Nat.Div0.mod_same. unfold view; simpl. by rewrite app_nil_r.
  - rewrite Nat.mod_small by (simpl; lia).
    rewrite (cons_middle _ A), app_assoc.
    rewrite view_rot by (rewrite length_app; simpl; lia).
    by rewrite <- app_assoc.
Qed.

(** A hit behind the cursor in the array. *)
Lemma promote_view_after A x0 M s T :
  view (promote (length A + S (length M))
          {| gRing := A ++ x0 :: M ++ Some s :: T; gRingIndex := length A |})
  = None :: M ++ T ++ A ++ [Some s].
Proof.
  unfold promote, splice_remove; simpl.
  rewrite decide_True by lia.
  assert ((A ++ x0 :: M ++ Some s :: T) !! (length A + S (length M)) = Some (Some s)) as ->.
  { rewrite lookup_app_r by lia.
    replace (length A + S (length M) - length A) with (S (length M)) by lia.
    simpl. by rewrite list_lookup_middle. }
  simpl. rewrite array_set_lt by (rewrite length_app; simpl; lia).
  rewrite insert_app_r_alt, Nat.sub_diag by lia. simpl.
  replace (A ++ Some s :: M ++ Some s :: T)
    with ((A ++ Some s :: M) ++ Some s :: T) by (by rewrite <- app_assoc).
  replace (length A + S (length M)) with (length (A ++ Some s :: M))
    by (rewrite length_app; simpl; lia).
  rewrite delete_middle.
  rewrite (proj2 (Nat.ltb_lt _ _)) by (rewrite length_app; simpl; lia).
  destruct (M ++ T) as [|y MT] eqn:E.
  - apply app_eq_nil in E as [-> ->]. rewrite !app_nil_r.
    replace (length (A ++ [Some s])) with (length A + 1)
      by (rewrite length_app; simpl; lia).
    rewrite Nat.Div0.mod_same. unfold splice_insert, view; simpl.
    by rewrite app_nil_r.
  - rewrite <- (app_assoc A), <- app_comm_cons, E.
    rewrite Nat.mod_small by (rewrite length_app; simpl; lia).
    unfold splice_insert.
    rewrite (cons_middle (Some s) A), app_assoc.
    rewrite take_app_length', drop_app_length'
      by (rewrite length_app; simpl; lia).
    rewrite view_rot by (rewrite length_app; simpl; lia).
    rewrite <- E. simpl. by rewrite <- app_assoc.
Qed.

(** A hit before the cursor in the array. *)
Lemma promote_view_before A1 s A2 x0 T :
  view (promote (length A1)
          {| gRing := A1 ++ Some s :: A2 ++ x0 :: T;
             gRingIndex := length A1 + S (length A2) |})
  = None :: T ++ A1 ++ A2 ++ [Some s].
Proof.
  unfold promote, splice_remove; simpl.
  rewrite decide_True by lia.
  rewrite list_lookup_middle by done. simpl.
  rewrite array_set_lt by (rewrite !length_app; simpl; rewrite length_app; simpl; lia).
  replace (A1 ++ Some s :: A2 ++ x0 :: T)
    with ((A1 ++ Some s :: A2) ++ x0 :: T) by (by rewrite <- app_assoc).
  rewrite insert_app_r_alt by (rewrite length_app; simpl; lia).
  replace (length A1 + S (length A2) - length (A1 ++ Some s :: A2)) with 0
    by (rewrite length_app; simpl; lia).
  simpl. rewrite <- app_assoc, <- app_comm_cons.
  rewrite delete_middle.
  rewrite (proj2 (Nat.ltb_ge _ _)) by lia.
  unfold splice_insert.
  replace (A1 ++ A2 ++ Some s :: T) with ((A1 ++ A2 ++ [Some s]) ++ T)
    by (by rewrite <- !app_assoc).
  rewrite take_app_length', drop_app_length'
    by (rewrite !length_app; simpl; lia).
  by rewrite view_rot by (rewrite !length_app; simpl; lia).
Qed.

(** The array and the view hold the same slots. *)
Lemma view_Permutation r : view r ≡ₚ gRing r.
Proof.
  unfold view. rewrite Permutation_app_comm. by rewrite take_drop.
Qed.

Lemma elem_of_contents r s : s ∈ contents r ↔ Some s ∈ gRing r.
Proof.
  unfold contents. rewrite list_elem_of_omap, <- view_Permutation. split.
  - intros ([s'|] & Hin & Hs); simplify_eq/=. done.
  - intros Hin. by exists (Some s).
Qed.

Lemma lookup_key_unique (l : list (option Slot)) i i' s s' :
  NoDup (key <$> omap id l) →
  l !! i = Some (Some s) → l !! i' = Some (Some s') → key s = key s' → i = i'.
Proof.
  revert i i'; induction l as [|x l IH]; intros i i' Hnd Hi Hi' Hk; [done|].
  assert (∀ j t, l !! j = Some (Some t) → key t ∈ key <$> omap id l) as Hin.
  { intros j t Hj. apply list_elem_of_fmap. exists t. split; [done|].
    apply list_elem_of_omap. exists (Some t). split; [|done].
    by eapply list_elem_of_lookup_2. }
  destruct x as [x|]; simpl in Hnd.
  - apply NoDup_cons in Hnd as [Hx Hnd].
    destruct i as [|i], i' as [|i']; simplify_eq/=; try done.
    + exfalso. apply Hx. rewrite Hk. by eapply Hin.
    + exfalso. apply Hx. rewrite <- Hk. by eapply Hin.
    + f_equal. by eapply IH.
  - destruct i as [|i], i' as [|i']; simplify_eq/=. f_equal. by eapply IH.
Qed.

Lemma getFromRing_loop_truthy fuel k i result r :
  truthy result = true → getFromRing_loop fuel k i result r = (result, r).
Proof. intros H. destruct fuel; simpl; [done|]. by rewrite H. Qed.

Lemma getFromRing_loop_miss fuel k i result r :
  (∀ j s, gRing r !! j = Some (Some s) → key s ≠ k) →
  getFromRing_loop fuel k i result r = (result, r).
Proof.
  intros Hk. revert i; induction fuel as [|fuel IH]; intros i; simpl; [done|].
  destruct (negb (truthy result) && (i <? length (gRing r))); [|done].
  unfold getFromRing_body.
  destruct (gRing r !! i) as [[s|]|] eqn:E; try apply IH.
  rewrite decide_False by (by eapply Hk). apply IH.
Qed.

Lemma getFromRing_loop_hit fuel k i0 i s r :
  gRing r !! i = Some (Some s) → key s = k → value s ≠ [] →
  (∀ j t, j < i → gRing r !! j = Some (Some t) → key t ≠ k) →
  i0 ≤ i → i - i0 < fuel →
  getFromRing_loop fuel k i0 None r = (Some (value s), promote i r).
Proof.
  intros Hi Hk Hv Hbefore. revert i0.
  induction fuel as [|fuel IH]; intros i0 Hle Hf; [lia|]. simpl.
  rewrite (proj2 (Nat.ltb_lt _ _)) by (apply lookup_lt_Some in Hi; lia).
  unfold getFromRing_body.
  destruct (decide (i0 = i)) as [->|Hne].
  - rewrite Hi, decide_True by done.
    apply getFromRing_loop_truthy. simpl. by destruct (value s).
  - assert (getFromRing_loop fuel k (S i0) None r
            = (Some (value s), promote i r)) as Hnext by (apply IH; lia).
    destruct (gRing r !! i0) as [[t|]|] eqn:E; try done.
    rewrite decide_False; [done|]. eapply Hbefore; [|done]. lia.
Qed.

(** The scan finds the one slot that holds the key. *)
Lemma getFromRing_hit_at r i s :
  ring_inv r → gRing r !! i = Some (Some s) →
  getFromRing (key s) r = (Some (value s), promote i r).
Proof.
  intros (Hok & Hnd & Hval) Hi. unfold getFromRing.
  apply getFromRing_loop_hit with (s := s); try done.
  - rewrite Forall_forall in Hval. apply Hval, elem_of_contents.
    by eapply list_elem_of_lookup_2.
  - intros j t Hj Ht Hk.
    assert (j = i); [|lia].
    eapply lookup_key_unique; [|done..].
    unfold ring_keys, contents in Hnd. by rewrite view_Permutation in Hnd.
  - lia.
  - apply lookup_lt_Some in Hi. lia.
Qed.

Lemma getFromRing_miss r k :
  k ∉ ring_keys r → getFromRing k r = (None, r).
Proof.
  intros Hk. apply getFromRing_loop_miss. intros j s Hj <-.
  apply Hk, list_elem_of_fmap. exists s. split; [done|].
  apply elem_of_contents. by eapply list_elem_of_lookup_2.
Qed.

(** The effect of a hit on the view: the entry moves to the far end; the
    slot under the cursor, unless it is the hit itself, is vacated. *)
Lemma getFromRing_hit_view r V1 s V2 :
  ring_inv r → view r = V1 ++ Some s :: V2 →
  ∃ r', getFromRing (key s) r = (Some (value s), r') ∧ ring_ok r' ∧
        view r' = match V1 with
                  | [] => V2 ++ [Some s]
                  | _ :: V1' => None :: V1' ++ V2 ++ [Some s]
                  end.
Proof.
  intros Hinv Hv. pose proof Hinv as (Hok & _ & _).
  destruct (ring_cut r Hok) as (A & x0 & T & Hr & Hv').
  assert (∀ i, gRing r !! i = Some (Some s) →
            getFromRing (key s) r = (Some (value s), promote i r)
            ∧ ring_ok (promote i r)) as Hhit.
  { intros i Hi. split; [by apply getFromRing_hit_at|].
    apply promote_ok; [done|]. by eapply lookup_lt_Some. }
  rewrite Hv in Hv'. subst r.
  destruct V1 as [|y V1]; simpl in Hv'; injection Hv' as Hx HT; subst.
  - destruct (Hhit (length A)) as [Hg Hok']; [by apply list_lookup_middle|].
    eexists; split; [exact Hg|]. split; [done|].
    by apply (promote_view_cursor {| gRing := A ++ Some s :: T;
                                      gRingIndex := length A |}).
  - symmetry in HT. apply app_eq_app in HT as [l [[-> Hl]|[-> ->]]].
    + destruct l as [|z l]; simpl in Hl.
      * subst A. destruct (Hhit 0) as [Hg Hok']; [done|].
        eexists; split; [exact Hg|]. split; [done|].
        rewrite app_nil_r.
        exact (promote_view_before [] s V2 x0 V1).
      * injection Hl as <- ->.
        destruct (Hhit (length A + S (length V1))) as [Hg Hok'].
        { simpl. rewrite lookup_app_r by lia.
          replace (length A + S (length V1) - length A) with (S (length V1)) by lia.
          simpl. by rewrite list_lookup_middle. }
        eexists; split; [exact Hg|]. split; [done|].
        rewrite promote_view_after. by rewrite <- ?app_assoc.
    + destruct (Hhit (length l)) as [Hg Hok'].
      { simpl. rewrite <- app_assoc. simpl. by rewrite list_lookup_middle. }
      eexists; split; [exact Hg|]. split; [done|].
      rewrite <- (app_assoc l), length_app. simpl.
      rewrite promote_view_before. by rewrite <- ?app_assoc.
Qed.

Lemma omap_id_split {A} (V : list (option A)) l1 s l2 :
  omap id V = l1 ++ s :: l2 →
  ∃ V1 V2, V = V1 ++ Some s :: V2 ∧ omap id V1 = l1 ∧ omap id V2 = l2.
Proof.
  revert l1; induction V as [|[x|] V IH]; intros l1 H; simpl in H.
  - by destruct l1.
  - destruct l1 as [|y l1]; simpl in H; injection H as -> H.
    + by exists [], V.
    + destruct (IH _ H) as (V1 & V2 & -> & <- & <-).
      by exists (Some y :: V1), V2.
  - destruct (IH _ H) as (V1 & V2 & -> & <- & <-).
    by exists (None :: V1), V2.
Qed.

Lemma tail_sublist {A} (l : list A) : tail l `sublist_of` l.
Proof. destruct l; simpl; [done|]. by apply sublist_cons. Qed.

Lemma NoDup_move_end {A} (X l1 l2 : list A) x :
  NoDup (l1 ++ x :: l2) → X `sublist_of` l1 → NoDup (X ++ l2 ++ [x]).
Proof.
  intros Hnd HX. apply (sublist_NoDup (X ++ l2 ++ [x]) (l1 ++ l2 ++ [x])).
  - assert (l1 ++ l2 ++ [x] ≡ₚ l1 ++ x :: l2) as Hp
      by (by rewrite (Permutation_app_comm l2 [x])).
    by rewrite Hp.
  - by apply sublist_app.
Qed.

Lemma Forall_move_end {A} (P : A → Prop) (X l1 l2 : list A) x :
  Forall P (l1 ++ x :: l2) → X `sublist_of` l1 → Forall P (X ++ l2 ++ [x]).
Proof.
  rewrite !Forall_app, Forall_cons, Forall_singleton.
  intros (H1 & Hx & H2) HX. split; [|done].
  rewrite Forall_forall in *. intros y Hy. apply H1.
  by eapply elem_of_sublist.
Qed.

Lemma cursor_occupied_view r x0 R :
  ring_ok r → view r = x0 :: R →
  cursor_occupied r = match x0 with Some _ => true | None => false end.
Proof.
  intros Hr Hv. destruct (ring_cut r Hr) as (A & x0' & T & -> & Hv').
  rewrite Hv in Hv'. injection Hv' as -> ->.
  unfold cursor_occupied; simpl. by rewrite list_lookup_middle.
Qed.

(** [addToRing] on the entries: the entry under the cursor, if any, goes, and
    the new one is the last in ring order. *)
Lemma addToRing_contents k v r :
  ring_ok r →
  contents (addToRing k v r)
  = (if cursor_occupied r then tail (contents r) else contents r)
    ++ [ {| key := k; value := v |} ].
Proof.
  intros Hr. unfold contents. rewrite addToRing_view by done.
  destruct (ring_cut r Hr) as (A & x0 & T & _ & Hv).
  rewrite (cursor_occupied_view r x0 (T ++ A)) by done.
  rewrite Hv, omap_app. by destruct x0.
Qed.

Lemma addToRing_inv k v r :
  ring_inv r → k ∉ ring_keys r → v ≠ [] → ring_inv (addToRing k v r).
Proof.
  intros (Hok & Hnd & Hval) Hk Hv.
  split; [by apply addToRing_ok|].
  unfold ring_keys in *. rewrite addToRing_contents by done.
  assert ((if cursor_occupied r then tail (contents r) else contents r)
          `sublist_of` contents r) as Hsub.
  { destruct (cursor_occupied r); [apply tail_sublist | done]. }
  split.
  - rewrite fmap_app. apply NoDup_app. split; [|split].
    + eapply sublist_NoDup; [exact Hnd|]. by apply fmap_sublist.
    + intros x Hx [->|[]%elem_of_nil]%elem_of_cons. apply Hk.
      eapply elem_of_sublist; [exact Hx|]. by apply fmap_sublist.
    + apply NoDup_singleton.
  - apply Forall_app. split; [|by apply Forall_singleton].
    rewrite Forall_forall in *. intros x Hx. apply Hval.
    by eapply elem_of_sublist.
Qed.

(** [getFromRing] at a key the ring holds: the value is returned, the entry
    becomes the last in ring order, and the entry under the cursor is lost
    unless it is the one hit. *)
Lemma getFromRing_hit r l1 s l2 :
  ring_inv r → contents r = l1 ++ s :: l2 →
  ∃ r', getFromRing (key s) r = (Some (value s), r') ∧ ring_inv r' ∧
        contents r' = (if cursor_occupied r then tail l1 else l1) ++ l2 ++ [s].
Proof.
  intros Hinv Hc. pose proof Hinv as (Hok & Hnd & Hval).
  destruct (omap_id_split _ _ _ _ Hc) as (V1 & V2 & Hv & H1 & H2).
  destruct (getFromRing_hit_view r V1 s V2 Hinv Hv) as (r' & Hg & Hok' & Hv').
  assert (contents r' = (if cursor_occupied r then tail l1 else l1) ++ l2 ++ [s])
    as Hc'.
  { unfold contents at 1. rewrite Hv'. destruct V1 as [|x0 V1].
    - simpl in H1. subst l1. rewrite omap_app, H2. simpl. by destruct (cursor_occupied r).
    - rewrite (cursor_occupied_view r x0 (V1 ++ Some s :: V2)) by done.
      simpl. rewrite !omap_app, H2. subst l1. by destruct x0. }
  exists r'. split; [done|]. split; [|done].
  assert ((if cursor_occupied r then tail l1 else l1) `sublist_of` l1) as Hsub.
  { destruct (cursor_occupied r); [apply tail_sublist | done]. }
  split; [done|]. unfold ring_keys in *. rewrite Hc' in *. rewrite Hc in *. split.
  - rewrite !fmap_app. rewrite fmap_app in Hnd. simpl in *.
    eapply NoDup_move_end; [exact Hnd|]. by apply fmap_sublist.
  - by eapply Forall_move_end.
Qed.

(** ** Ring cache: runs *)

Lemma filter_ne_notin (k : jsstring) (l : list jsstring) :
  k ∉ l → filter (λ k', k' ≠ k) l = l.
Proof.
  induction l as [|x l IH]; [done|]. intros [Hx Hl]%not_elem_of_cons.
  rewrite filter_cons_True by done. by rewrite IH.
Qed.

Lemma filter_ne_middle (k : jsstring) (a b : list jsstring) :
  NoDup (a ++ k :: b) → filter (λ k', k' ≠ k) (a ++ k :: b) = a ++ b.
Proof.
  intros Hnd. apply NoDup_app in Hnd as (_ & Ha & [Hb _]%NoDup_cons).
  rewrite filter_app, filter_cons_False by naive_solver.
  rewrite !filter_ne_notin; [done..|].
  intros Hk. by apply (Ha k Hk), list_elem_of_here.
Qed.

(** One operation of an admissible run, on the keys in ring order: a touch
    moves the key to the end and may cost the key under the cursor. *)
Lemma ring_step_keys r op :
  ring_inv r →
  match op with Put k v => (k ∉ ring_keys r) ∧ v ≠ [] | Get _ => True end →
  ring_inv (ring_step r op) ∧
  if touches r op then
    ∃ X, ring_keys (ring_step r op) = X ++ [op_key op] ∧
         (X = filter (λ k', k' ≠ op_key op) (ring_keys r) ∨
          X = tail (filter (λ k', k' ≠ op_key op) (ring_keys r)))
  else ring_step r op = r.
Proof.
  intros Hinv Hop. destruct op as [k v|k]; simpl.
  - destruct Hop as [Hk Hv]. split; [by apply addToRing_inv|].
    destruct Hinv as (Hok & _ & _).
    unfold ring_keys in *. rewrite addToRing_contents, fmap_app by done. simpl.
    eexists; split; [reflexivity|]. rewrite filter_ne_notin by done.
    destruct (cursor_occupied r); [right | left]; [|done].
    by destruct (contents r).
  - case_bool_decide as Hk.
    + unfold ring_keys in Hk. apply list_elem_of_fmap in Hk as (s & -> & Hs).
      apply list_elem_of_split in Hs as (l1 & l2 & Hc).
      destruct (getFromRing_hit r l1 s l2 Hinv Hc) as (r' & Hg & Hinv' & Hc').
      rewrite Hg. simpl. split; [done|].
      destruct Hinv as (_ & Hnd & _). unfold ring_keys in *.
      rewrite Hc' in *. rewrite Hc in *. rewrite fmap_app in Hnd. simpl in Hnd.
      rewrite (fmap_app _ l1), fmap_cons, filter_ne_middle by done.
      rewrite app_assoc, fmap_app. simpl.
      eexists; split; [reflexivity|]. rewrite fmap_app.
      destruct (cursor_occupied r); [|by left].
      destruct l1; [by left | by right].
    + by rewrite getFromRing_miss.
Qed.

Lemma admissible_inv r ops :
  ring_inv r → admissible r ops → ring_inv (foldl ring_step r ops).
Proof.
  revert r; induction ops as [|op ops IH]; intros r Hinv Hadm; [done|].
  destruct Hadm as [Hop Hadm]. simpl. apply IH; [|done].
  by apply ring_step_keys.
Qed.

Lemma emptyRing_inv : ring_inv emptyRing.
Proof.
  split; [apply emptyRing_ok|]. unfold ring_keys, contents.
  assert (omap id (view emptyRing) = []) as -> by reflexivity.
  split; [apply NoDup_nil_2 | apply Forall_nil_2].
Qed.

Lemma length_omap_le {A B} (f : A → option B) (l : list A) :
  length (omap f l) ≤ length l.
Proof.
  induction l as [|x l IH]; [done|]. cbn. fold (omap f l).
  destruct (f x); cbn; lia.
Qed.

Lemma ring_keys_length r : ring_ok r → length (ring_keys r) ≤ RING_SIZE.
Proof.
  intros [Hl Hc]. unfold ring_keys, contents.
  rewrite length_fmap. etrans; [apply length_omap_le|].
  unfold view. rewrite length_app, length_drop, length_take. lia.
Qed.

(** The ring holds the most recently touched keys, in the order of their
    last touch. *)
Lemma ring_keys_suffix_history ops r h :
  admissible emptyRing ops →
  foldl history_step (emptyRing, []) ops = (r, h) →
  ring_inv r ∧ ring_keys r `suffix_of` h ∧ NoDup h.
Proof.
  assert (∀ r0 h0, ring_inv r0 → ring_keys r0 `suffix_of` h0 → NoDup h0 →
            admissible r0 ops → foldl history_step (r0, h0) ops = (r, h) →
            ring_inv r ∧ ring_keys r `suffix_of` h ∧ NoDup h) as Hgen.
  { clear. revert r h; induction ops as [|op ops IH];
      intros r h r0 h0 Hinv Hsuf Hnd Hadm Hrun.
    - simpl in Hrun. by simplify_eq.
    - destruct Hadm as [Hop Hadm]. simpl in Hrun.
      destruct (ring_step_keys r0 op Hinv Hop) as [Hinv' Hk].
      eapply IH; [| | |exact Hadm|exact Hrun]; simpl; [done|..];
        destruct (touches r0 op); [| by rewrite Hk | | done].
      + destruct Hk as (X & -> & HX). unfold touch. apply suffix_snoc.
        destruct Hsuf as [p ->]. rewrite filter_app.
        trans (filter (λ k', k' ≠ op_key op) (ring_keys r0));
          [|by apply suffix_app_r].
        destruct HX as [->| ->]; [done|].
        destruct (filter _ (ring_keys r0)); [done|]. by apply suffix_cons_r.
      + unfold touch. apply NoDup_app. split; [by apply NoDup_filter|].
        split; [|apply NoDup_singleton].
        intros x [Hx _]%list_elem_of_filter [->|[]%elem_of_nil]%elem_of_cons.
        done. }
  intros Hadm Hrun. eapply Hgen; [apply emptyRing_inv| | |done..].
  - by exists [].
  - apply NoDup_nil_2.
Qed.

(** After more than [RING_SIZE] distinct keys have been touched, the least
    recently touched one is no longer in the ring. *)
Lemma least_recently_touched_gone ops r h k0 :
  admissible emptyRing ops →
  foldl history_step (emptyRing, []) ops = (r, h) →
  RING_SIZE < length h → head h = Some k0 →
  getFromRing k0 r = (None, r).
Proof.
  intros Hadm Hrun Hlen Hhead.
  destruct (ring_keys_suffix_history ops r h Hadm Hrun) as (Hinv & [p Hp] & Hnd).
  apply getFromRing_miss. intros Hin.
  pose proof (ring_keys_length r (proj1 Hinv)) as Hk.
  subst h. rewrite length_app in Hlen.
  destruct p as [|k p]; simpl in *; [lia|]. simplify_eq.
  apply NoDup_cons in Hnd as [Hk0 _]. apply Hk0, elem_of_app. by right.
Qed.

Lemma elem_of_tail {A} (l : list A) x : x ∈ tail l → x ∈ l.
Proof. intros Hx. eapply elem_of_sublist; [exact Hx | apply tail_sublist]. Qed.

Lemma sublist_pair_tail (b a : jsstring) l :
  NoDup l → [b; a] `sublist_of` l → b ∈ tail l → [b; a] `sublist_of` tail l.
Proof.
  destruct l as [|y l]; simpl; intros Hnd Hs Hb; [done|].
  apply sublist_cons_r in Hs as [Hs | (l' & Heq & Hs)]; [done|].
  injection Heq as ? ?; subst. by apply NoDup_cons in Hnd as [[] _].
Qed.

Lemma sublist_pair_filter (b a k : jsstring) l :
  b ≠ k → a ≠ k → [b; a] `sublist_of` l →
  [b; a] `sublist_of` filter (λ k', k' ≠ k) l.
Proof.
  intros Hb Ha. induction l as [|y l IH]; intros Hs.
  - by apply sublist_nil_r in Hs.
  - apply sublist_cons_r in Hs as [Hs | (l' & Heq & Hs)].
    + destruct (decide (y ≠ k)).
      * rewrite filter_cons_True by done. by apply sublist_cons, IH.
      * rewrite filter_cons_False by done. by apply IH.
    + injection Heq as ? ?; subst. rewrite filter_cons_True by done.
      apply sublist_skip, singleton_sublist_l, list_elem_of_filter.
      split; [done|]. by apply singleton_sublist_l.
Qed.

(** One operation that does not name [b] keeps [b] ahead of [a] in ring
    order; a touch of [a] puts it behind every other key. *)
Lemma order_step r a b op :
  ring_inv r → a ≠ b → op_key op ≠ b →
  match op with Put k v => (k ∉ ring_keys r) ∧ v ≠ [] | Get _ => True end →
  (op_key op = a ∧ touches r op = true) ∨
    (b ∈ ring_keys r → [b; a] `sublist_of` ring_keys r) →
  b ∈ ring_keys (ring_step r op) →
  [b; a] `sublist_of` ring_keys (ring_step r op).
Proof.
  intros Hinv Hab Hkb Hop HQ.
  destruct (ring_step_keys r op Hinv Hop) as [_ Hk].
  destruct (touches r op) eqn:Ht.
  - destruct Hk as (X & -> & HX). intros [Hb|Hb%list_elem_of_singleton]%elem_of_app;
      [|done].
    destruct (decide (op_key op = a)) as [->|Hka].
    + apply (sublist_app [b] X [a] [a]); [|done]. by apply singleton_sublist_l.
    + destruct HQ as [[? _]|HQ]; [done|]. apply sublist_inserts_r.
      assert (b ∈ filter (λ k', k' ≠ op_key op) (ring_keys r)) as Hb'.
      { destruct HX as [->| ->]; [done | by apply elem_of_tail]. }
      assert ([b; a] `sublist_of` filter (λ k', k' ≠ op_key op) (ring_keys r)) as Hs.
      { apply sublist_pair_filter; [done..|].
        apply HQ. by apply list_elem_of_filter in Hb' as [_ ?]. }
      destruct HX as [->| ->]; [done|].
      apply sublist_pair_tail; [|done..].
      apply NoDup_filter. apply Hinv.
  - rewrite Hk. destruct HQ as [[_ ?]|HQ]; [done|]. exact HQ.
Qed.

(** A key hit by [getFromRing] stays in the ring at least as long as any
    key that is not touched afterwards. *)
Lemma touched_key_outlives r a b ops :
  ring_inv r → a ∈ ring_keys r → a ≠ b →
  admissible (getFromRing a r).2 ops →
  (∀ op, op ∈ ops → op_key op ≠ b) →
  b ∈ ring_keys (foldl ring_step (getFromRing a r).2 ops) →
  a ∈ ring_keys (foldl ring_step (getFromRing a r).2 ops).
Proof.
  intros Hinv Ha Hab Hadm Hops Hb.
  assert (∀ r0, ring_inv r0 →
            (b ∈ ring_keys r0 → [b; a] `sublist_of` ring_keys r0) →
            admissible r0 ops →
            b ∈ ring_keys (foldl ring_step r0 ops) →
            [b; a] `sublist_of` ring_keys (foldl ring_step r0 ops)) as Hgen.
  { clear Hinv Ha Hadm Hb r. induction ops as [|op ops IH];
      intros r0 Hinv HQ Hadm Hb; [by apply HQ|].
    destruct Hadm as [Hop Hadm]. simpl in *.
    apply IH.
    - intros op' Hop'. apply Hops. by right.
    - by apply ring_step_keys.
    - apply order_step; [done | done | apply Hops; by left | done | by right].
    - done.
    - done. }
  assert ([b; a] `sublist_of`
            ring_keys (foldl ring_step (getFromRing a r).2 ops)) as Hs.
  { apply Hgen; [| |done..].
    - change (ring_inv (ring_step r (Get a))). by apply ring_step_keys.
    - change (b ∈ ring_keys (ring_step r (Get a)) →
              [b; a] `sublist_of` ring_keys (ring_step r (Get a))).
      apply order_step; [done..|]. left. split; [done|].
      simpl. by apply bool_decide_eq_true. }
  eapply elem_of_sublist; [|exact Hs].
  apply list_elem_of_further, list_elem_of_here.
Qed.

Lemma elem_of_touch (k k' : jsstring) (h : list jsstring) :
  k' ∈ touch k h ↔ k' = k ∨ k' ∈ h.
Proof.
  unfold touch. rewrite elem_of_app, list_elem_of_filter, list_elem_of_singleton.
  destruct (decide (k' = k)) as [->|Hne]; [by split; [left | right]|].
  split; [intros [[_ ?]|?]; [by right | done] | intros [?|?]; [done | by left]].
Qed.

(** The keys of the history are the keys that were put. *)
Lemma history_keys_put ops r h :
  admissible emptyRing ops →
  foldl history_step (emptyRing, []) ops = (r, h) →
  ∀ k, k ∈ h ↔ ∃ v, Put k v ∈ ops.
Proof.
  assert (∀ r0 h0, ring_inv r0 → ring_keys r0 ⊆ h0 →
            admissible r0 ops → foldl history_step (r0, h0) ops = (r, h) →
            (∀ k, k ∈ ring_keys r → k ∈ h)
            ∧ ∀ k, k ∈ h ↔ k ∈ h0 ∨ ∃ v, Put k v ∈ ops) as Hgen.
  { clear. revert r h; induction ops as [|op ops IH];
      intros r h r0 h0 Hinv Hsub Hadm Hrun.
    - simpl in Hrun. injection Hrun as <- <-. split; [done|].
      intros k. split; [by left|]. intros [?|[v []%elem_of_nil]]. done.
    - destruct Hadm as [Hop Hadm]. simpl in Hrun.
      destruct (ring_step_keys r0 op Hinv Hop) as [Hinv' Hk].
      assert (∀ k, k ∈ (if touches r0 op then touch (op_key op) h0 else h0)
                   ↔ k ∈ h0 ∨ ∃ v, op = Put k v) as Hh.
      { intros k. destruct op as [k1 v1|k1]; simpl.
        - rewrite elem_of_touch. split.
          + intros [->|?]; [right; by exists v1 | by left].
          + intros [?|[v [= -> ->]]]; [by right | by left].
        - case_bool_decide as Hin.
          + rewrite elem_of_touch. split.
            * intros [->|?]; left; [by apply Hsub | done].
            * intros [?|[v [=]]]. by right.
          + split; [by left|]. by intros [?|[v [=]]]. }
      destruct (IH r h (ring_step r0 op)
                  (if touches r0 op then touch (op_key op) h0 else h0))
        as [I1 I2]; [done| |done|done|].
      { intros k Hkin. apply Hh. destruct (touches r0 op) eqn:Ht.
        - destruct Hk as (X & HX & HF). rewrite HX in Hkin.
          apply elem_of_app in Hkin as [Hkin|Hkin%list_elem_of_singleton].
          + left. apply Hsub.
            assert (k ∈ filter (λ k', k' ≠ op_key op) (ring_keys r0)) as Hf.
            { destruct HF as [->| ->]; [done | by apply elem_of_tail]. }
            by apply list_elem_of_filter in Hf as [_ ?].
          + subst k. destruct op as [k1 v1|k1]; simpl in *.
            * right. by exists v1.
            * left. apply Hsub. by apply bool_decide_eq_true in Ht.
        - left. apply Hsub. by rewrite Hk in Hkin. }
      split; [done|]. intros k. rewrite I2, Hh. split.
      + intros [[?|[v Hv]]|[v Hv]]; [by left|right..].
        * exists v. rewrite Hv. left.
        * exists v. by right.
      + intros [?|[v [Heq|Hv]%elem_of_cons]].
        * by left; left.
        * left; right. by exists v.
        * right. by exists v. }
  intros Hadm Hrun k.
  destruct (Hgen emptyRing [] emptyRing_inv) as [_ H]; [|done..|].
  { intros k' Hk'. by vm_compute in Hk'. }
  rewrite H. split; [intros [[]%elem_of_nil|?]; done | by right].
Qed.

(** C3 (amended): the ring keeps its entries in recency order, the least
    recently used under the cursor.  [addToRing] overwriting an occupied slot
    removes exactly the least recently used entry; a [getFromRing] hit makes
    the entry the most recently used; the ring holds the most recently touched
    of the keys put, so once more than [RING_SIZE] distinct keys were put the
    least recently touched one is gone; a key that was hit outlives every key
    left untouched.  It is not an LRU cache of capacity 40: a hit at a slot
    other than the cursor also drops the entry under the cursor.  The history
    [h] lists the distinct keys put so far in the order of their last touch. *)
Theorem ring_recency_order :
  ring_inv emptyRing
  ∧ (∀ r k v, ring_inv r → k ∉ ring_keys r → v ≠ [] →
       ring_inv (addToRing k v r) ∧
       contents (addToRing k v r)
       = (if cursor_occupied r then tail (contents r) else contents r)
         ++ [ {| key := k; value := v |} ])
  ∧ (∀ r k, ring_inv r → k ∉ ring_keys r → getFromRing k r = (None, r))
  ∧ (∀ r l1 s l2, ring_inv r → contents r = l1 ++ s :: l2 →
       ∃ r', getFromRing (key s) r = (Some (value s), r') ∧ ring_inv r' ∧
             contents r'
             = (if cursor_occupied r then tail l1 else l1) ++ l2 ++ [s])
  ∧ (∀ ops r h, admissible emptyRing ops →
       foldl history_step (emptyRing, []) ops = (r, h) →
       NoDup h ∧ (∀ k, k ∈ h ↔ ∃ v, Put k v ∈ ops) ∧
       ring_keys r `suffix_of` h ∧
       (RING_SIZE < length h →
        ∀ k0, head h = Some k0 → getFromRing k0 r = (None, r)))
  ∧ (∀ r a b ops, ring_inv r → a ∈ ring_keys r → a ≠ b →
       admissible (getFromRing a r).2 ops →
       (∀ op, op ∈ ops → op_key op ≠ b) →
       b ∈ ring_keys (foldl ring_step (getFromRing a r).2 ops) →
       a ∈ ring_keys (foldl ring_step (getFromRing a r).2 ops)).
Proof.
  split; [exact emptyRing_inv|]. split.
  { intros r k v Hinv Hk Hv. split; [by apply addToRing_inv|].
    apply addToRing_contents, Hinv. }
  split; [intros r k _; apply getFromRing_miss|].
  split; [exact getFromRing_hit|]. split.
  { intros ops r h Hadm Hrun.
    destruct (ring_keys_suffix_history ops r h) as (_ & Hsuf & Hnd); [done..|].
    split; [done|]. split; [by apply (history_keys_put ops r h)|].
    split; [done|].
    intros Hlen k0 Hk0. by eapply least_recently_touched_gone. }
  exact touched_key_outlives.
Qed.

(** C3, counterexample: after forty puts of distinct keys and a hit on the
    second key, the first key is gone from the ring although nothing was put
    since; the LRU cache of the specification still holds it. *)
Lemma ring_is_not_lru :
  (getFromRing (key_n 0)
     (foldl ring_step emptyRing (fill_ops ++ [Get (key_n 1)]))).1 = None
  ∧ (lru_get (key_n 0)
       (foldl (lru_step RING_SIZE) [] (fill_ops ++ [Get (key_n 1)]))).1
    = Some (js "[]").
Proof. split; vm_compute; reflexivity. Qed.

(** C9, at a ring with two entries and the cursor past them. *)
Lemma ring_shape_preserved_witness :
  ring_ok two_entries
  ∧ ring_ok (addToRing (js "a") (js "[]") two_entries)
  ∧ ring_ok (getFromRing (js "a") two_entries).2.
Proof.
  assert (ring_ok two_entries) as Hr by (split; [reflexivity | vm_compute; lia]).
  split; [exact Hr|].
  exact (ring_shape_preserved two_entries (js "a") (js "[]") Hr).
Defined.

(** * Further properties *)

Local Open Scope Z_scope.

(** ** Scorer: range, failure and what a score means *)

(** ** Strings: what [startsWith] and [indexOf] find *)

Lemma startsWith_prefix w q : startsWith w q = true ↔ q `prefix_of` w.
Proof.
  revert w; induction q as [|c q IH]; intros w.
  - split; [intros _; apply prefix_nil | by destruct w].
  - destruct w as [|d w]; simpl.
    + split; [done|]. intros H. by apply prefix_nil_inv in H.
    + rewrite andb_true_iff, N.eqb_eq, IH. split.
      * intros [-> H]. by apply prefix_cons.
      * intros H. split; [by apply prefix_cons_inv_1 in H|by apply prefix_cons_inv_2 in H].
Qed.

Lemma indexOf_from_found i w q :
  0 ≤ i → 0 ≤ indexOf_from i w q → ∃ a b, w = a ++ q ++ b.
Proof.
  revert i; induction w as [|d w IH]; intros i Hi; cbn [indexOf_from].
  - destruct (startsWith [] q) eqn:Hs; [|lia].
    intros _. apply startsWith_prefix in Hs as [b ->]. by exists [], b.
  - destruct (startsWith (d :: w) q) eqn:Hs.
    + intros _. apply startsWith_prefix in Hs as [b ->]. by exists [], b.
    + intros H. apply IH in H as (a & b & ->); [|lia]. by exists (d :: a), b.
Qed.

Lemma indexOf_from_none i w q :
  0 ≤ i → indexOf_from i w q < 0 → ∀ a b, w ≠ a ++ q ++ b.
Proof.
  revert i; induction w as [|d w IH]; intros i Hi; cbn [indexOf_from].
  - destruct (startsWith [] q) eqn:Hs; [lia|].
    intros _ a b H. destruct a; [|done]. simpl in H.
    assert (startsWith [] q = true); [|congruence].
    apply startsWith_prefix. by exists b.
  - destruct (startsWith (d :: w) q) eqn:Hs; [lia|].
    intros H a b Heq. destruct a as [|x a].
    + assert (startsWith (d :: w) q = true); [|congruence].
      apply startsWith_prefix. exists b. done.
    + injection Heq as -> Heq. by eapply (IH (i + 1)); [lia|..].
Qed.

(** A token that scores above 0 contains the query. *)
Lemma computeWordScore_positive word q :
  (0 < computeWordScore word q)%Q → ∃ a b, word = a ++ q ++ b.
Proof.
  unfold computeWordScore.
  destruct (decide (word = q)) as [->|_].
  { intros _. exists [], []. by rewrite app_nil_r. }
  destruct (startsWith word q) eqn:Hs.
  { intros _. apply startsWith_prefix in Hs as [b ->]. by exists [], b. }
  destruct (0 <=? indexOf word q) eqn:Hi; [|intros H; unfold Qlt in H; simpl in H; lia].
  intros _. apply Z.leb_le in Hi. by apply (indexOf_from_found 0).
Qed.

Lemma Math_round_small x : (0 <= x)%Q → (x <= 0)%Q → Math_round x = 0.
Proof.
  intros H0 H1. assert (x == 0)%Q as Hx by (by apply Qle_antisym).
  unfold Math_round. by rewrite Hx.
Qed.

Section ScorerMore.

Variable fold : jsstring -> jsstring.
Variable fold_undefined : option jsstring.
Variable toLowerCase : jsstring -> jsstring.

Lemma best_bounds q words score :
  (0 <= score <= 98)%Q → q ∉ words → (0 <= best q words score <= 98)%Q.
Proof.
  revert score; induction words as [|word words IH]; intros score Hs Hq; [done|].
  apply not_elem_of_cons in Hq as [Hne Hq]. simpl. apply IH; [|done].
  destruct (computeWordScore_bounds word q) as [H0 H98]; [done|].
  split; [|apply Q.max_lub; tauto].
  eapply Qle_trans; [|apply Q.le_max_r]. done.
Qed.

(** Without a token equal to the query the loop returns the rounded maximum. *)
Lemma computeScore_loop_best node q words score :
  (0 <= score <= 98)%Q → q ∉ words →
  computeScore_loop fold fold_undefined toLowerCase node q words score = Some (Math_round (best q words score)).
Proof.
  revert score; induction words as [|word words IH]; intros score Hs Hq; [done|].
  pose proof (best_bounds q [word] score Hs) as Hb.
  apply not_elem_of_cons in Hq as [Hne Hq]. simpl.
  assert (0 <= Qmax score (computeWordScore word q) <= 98)%Q as Hs'.
  { apply Hb. apply not_elem_of_cons. split; [congruence | apply not_elem_of_nil]. }
  destruct (Qeq_bool _ 99) eqn:E.
  - apply Qeq_bool_iff in E. rewrite E in Hs'. by destruct Hs' as [_ []].
  - by apply IH.
Qed.

Lemma best_upper q words score x :
  (∀ word, word ∈ words → computeWordScore word q <= x)%Q → (score <= x)%Q →
  (best q words score <= x)%Q.
Proof.
  revert score; induction words as [|word words IH]; intros score Hw Hs; [done|].
  simpl. apply IH.
  - intros w Hin. apply Hw. by right.
  - apply Q.max_lub; [done|]. apply Hw. left.
Qed.

Lemma best_ge_score q words score : (score <= best q words score)%Q.
Proof.
  revert score; induction words as [|word words IH]; intros score; simpl.
  - apply Qle_refl.
  - eapply Qle_trans; [|apply IH]. apply Q.le_max_l.
Qed.

Lemma best_ge_word q words score word :
  word ∈ words → (computeWordScore word q <= best q words score)%Q.
Proof.
  revert score; induction words as [|w words IH]; intros score Hin.
  - by apply elem_of_nil in Hin.
  - simpl. apply elem_of_cons in Hin as [->|Hin].
    + eapply Qle_trans; [|apply best_ge_score]. apply Q.le_max_r.
    + by apply IH.
Qed.

Lemma best_positive q words score :
  (0 < best q words score)%Q →
  (0 < score)%Q ∨ ∃ t, t ∈ words ∧ (0 < computeWordScore t q)%Q.
Proof.
  revert score; induction words as [|word words IH]; intros score H; [by left|].
  simpl in H. apply IH in H as [H|(t & Ht & H)].
  - apply Q.max_lt_iff in H as [H|H]; [by left|].
    right. exists word. split; [left | done].
  - right. exists t. split; [by right | done].
Qed.

(** Whatever the running score below 99, the loop ends between 0 and 100. *)
Lemma computeScore_loop_range node q words score z :
  (0 <= score <= 98)%Q → computeScore_loop fold fold_undefined toLowerCase node q words score = Some z → 0 ≤ z ≤ 100.
Proof.
  intros Hs H. destruct (decide (q ∈ words)) as [Hin|Hout].
  - pose proof (computeScore_loop_match fold fold_undefined toLowerCase
                  node q words score) as Hm.
    cbv zeta in Hm. rewrite Hm in H by done. clear Hm.
    destruct (fold_toLowerCase _ _ _ (v node)) as [l|]; simpl in H; [|done].
    destruct (decide (l = q)); [injection H as <-; lia|].
    destruct (fold_toLowerCase _ _ _ (gloss node)) as [g|]; simpl in H; [|done].
    destruct (decide (g = q)); injection H as <-; lia.
  - destruct (computeScore_loop_no_match fold fold_undefined toLowerCase
                node q words score) as (z' & Hz & Hb); [done..|].
    cbv zeta in Hz. rewrite Hz in H. injection H as <-. lia.
Qed.

(** X1: whenever [computeScore] returns, the score lies between 0 and
    100. *)
Theorem computeScore_range node q z :
  computeScore fold fold_undefined toLowerCase node q = Some z → 0 ≤ z ≤ 100.
Proof.
  unfold computeScore. intros H.
  by apply (computeScore_loop_range node q (index node) 0).
Qed.

(** X2: [computeScore] throws exactly when folding [undefined] throws, a
    token equals the query, and the entry has no headword or has no gloss
    while its folded headword differs from the query. *)
Theorem computeScore_throws_iff node q :
  computeScore fold fold_undefined toLowerCase node q = None ↔
  fold_undefined = None ∧ q ∈ index node ∧
  (v node = None ∨ (gloss node = None ∧ fold_toLowerCase fold fold_undefined toLowerCase (v node) ≠ Some q)).
Proof.
  unfold computeScore.
  destruct (decide (q ∈ index node)) as [Hin|Hout].
  - pose proof (computeScore_loop_match fold fold_undefined toLowerCase
                  node q (index node) 0) as Hm.
    cbv zeta in Hm. rewrite Hm by done. clear Hm.
    unfold fold_toLowerCase.
    destruct (v node) as [s|], (gloss node) as [g|], fold_undefined as [u|]; simpl;
      repeat case_decide; intuition congruence.
  - destruct (computeScore_loop_no_match fold fold_undefined toLowerCase
                node q (index node) 0) as (z' & Hz & Hb); [done..|].
    cbv zeta in Hz. rewrite Hz. intuition congruence.
Qed.

(** X3: a score above 0 means that some token of the entry contains the
    query as a contiguous part. *)
Theorem computeScore_positive_occurs node q z :
  computeScore fold fold_undefined toLowerCase node q = Some z → 0 < z →
  ∃ t a b, t ∈ index node ∧ t = a ++ q ++ b.
Proof.
  unfold computeScore. intros H Hz.
  destruct (decide (q ∈ index node)) as [Hin|Hout].
  { exists q, [], []. by rewrite app_nil_r. }
  pose proof (computeScore_loop_best node q (index node) 0) as Hb.
  rewrite Hb in H by done. injection H as <-.
  destruct (Qlt_le_dec 0 (best q (index node) 0)) as [Hpos|Hle].
  - apply best_positive in Hpos as [Hpos|(t & Ht & Hpos)];
      [by apply Qlt_irrefl in Hpos|].
    apply computeWordScore_positive in Hpos as (a & b & ->). eauto.
  - rewrite Math_round_small in Hz; [lia | apply best_ge_score | done].
Qed.

End ScorerMore.

Lemma Qdiv_antitone (a b1 b2 : Z) :
  0 ≤ a → 0 < b1 → b1 ≤ b2 →
  (inject_Z a / inject_Z b2 <= inject_Z a / inject_Z b1)%Q.
Proof.
  intros Ha Hb1 Hb2.
  destruct b1 as [|p1|p1]; try lia. destruct b2 as [|p2|p2]; try lia.
  unfold Qle, Qdiv, Qmult, Qinv, inject_Z; simpl. nia.
Qed.

Section ScorerOrder.

Variable fold : jsstring -> jsstring.
Variable fold_undefined : option jsstring.
Variable toLowerCase : jsstring -> jsstring.

Lemma best_same q l1 l2 score :
  (∀ t, t ∈ l1 ↔ t ∈ l2) → best q l1 score == best q l2 score.
Proof.
  intros H. apply Qle_antisym; apply best_upper;
    try apply best_ge_score; intros w Hw; apply best_ge_word; by apply H.
Qed.

(** X4: the score depends on which tokens the index holds, not on their
    order or on repetitions. *)
Theorem computeScore_token_set n1 n2 q :
  (∀ t, t ∈ index n1 ↔ t ∈ index n2) → v n1 = v n2 → gloss n1 = gloss n2 →
  computeScore fold fold_undefined toLowerCase n1 q
  = computeScore fold fold_undefined toLowerCase n2 q.
Proof.
  intros Hi Hv Hg. unfold computeScore.
  destruct (decide (q ∈ index n1)) as [Hin|Hout].
  - pose proof (computeScore_loop_match fold fold_undefined toLowerCase) as Hm.
    cbv zeta in Hm. rewrite !Hm by (done || by apply Hi).
    by rewrite Hv, Hg.
  - rewrite !computeScore_loop_best by (done || by rewrite <- Hi).
    f_equal. unfold Math_round. by rewrite (best_same q _ _ 0 Hi).
Qed.

(** X5: of two tokens that both start with the query, or that both contain
    it further in, the longer one scores no more than the shorter one. *)
Theorem computeWordScore_longer_token t1 t2 q :
  t1 ≠ q → (length t1 ≤ length t2)%nat →
  (startsWith t1 q = true ∧ startsWith t2 q = true)
  ∨ (startsWith t1 q = false ∧ startsWith t2 q = false
     ∧ 0 ≤ indexOf t1 q ∧ 0 ≤ indexOf t2 q) →
  (computeWordScore t2 q <= computeWordScore t1 q)%Q.
Proof.
  intros Hne Hlen Htier. unfold computeWordScore.
  rewrite (decide_False (P := t1 = q)) by done.
  assert (length q ≤ length t1 ∧ (length q = length t1 → t1 = q))%nat as [Hq1 Hq2].
  { destruct Htier as [[H1 _]|(_ & _ & H1 & _)].
    - by apply startsWith_length.
    - apply (indexOf_from_found 0) in H1 as (a & b & ->); [|done].
      rewrite !length_app. split; [lia|]. intros Hl.
      destruct a, b; simpl in *; try lia. by rewrite app_nil_r. }
  assert (t2 ≠ q) as Hne2 by (intros ->; apply Hne, Hq2; lia).
  rewrite (decide_False (P := t2 = q)) by done.
  assert (0 < len t1) by (unfold len; destruct t1; [destruct q; [done | simpl in Hq1; lia] | simpl; lia]).
  destruct Htier as [[-> ->]|(-> & -> & H1 & H2)].
  - apply Qdiv_antitone; unfold len in *; lia.
  - rewrite !(proj2 (Z.leb_le _ _)) by done.
    apply Qdiv_antitone; unfold len in *; lia.
Qed.

End ScorerOrder.

Lemma computeScore_range_witness :
  computeScore fold_ascii None toLowerCase_latin aragorn (js "ara") = Some 42
  ∧ 0 ≤ 42 ≤ 100.
Proof.
  split; [reflexivity|].
  apply (computeScore_range fold_ascii None toLowerCase_latin aragorn (js "ara")).
  reflexivity.
Defined.

Lemma computeScore_positive_occurs_witness :
  ∃ t a b, t ∈ index aragorn ∧ t = a ++ js "ago" ++ b.
Proof.
  apply (computeScore_positive_occurs fold_ascii None toLowerCase_latin
           aragorn (js "ago") 30); [reflexivity | lia].
Defined.

Lemma computeScore_token_set_witness :
  computeScore fold_ascii None toLowerCase_latin minas_tirith (js "tow")
  = computeScore fold_ascii None toLowerCase_latin minas_tirith_shuffled (js "tow").
Proof.
  apply (computeScore_token_set fold_ascii None toLowerCase_latin
           minas_tirith minas_tirith_shuffled (js "tow")); [|reflexivity..].
  intros t. unfold minas_tirith, minas_tirith_shuffled, entry_of. simpl.
  rewrite !elem_of_cons, !elem_of_nil. tauto.
Defined.

Lemma computeWordScore_longer_token_witness :
  (computeWordScore (js "aragorn") (js "ara") <= computeWordScore (js "aran") (js "ara"))%Q.
Proof.
  apply (computeWordScore_longer_token (js "aran") (js "aragorn") (js "ara")).
  - done.
  - simpl. lia.
  - left. split; reflexivity.
Defined.

(** ** Query engine: order of the results and failure *)

Section QueryOrder.

Variable fold : jsstring -> jsstring.
Variable fold_undefined : option jsstring.
Variable toLowerCase : jsstring -> jsstring.
Variable gShortDefinitions : gmap (option jsstring) jsstring.

Lemma matchQuery_loop_filter q entries result results :
  matchQuery_loop fold fold_undefined toLowerCase gShortDefinitions q entries result
  = Some results →
  spread <$> results
  = (spread <$> result) ++ filter (matches fold fold_undefined toLowerCase q) entries.
Proof.
  revert result; induction entries as [|e entries IH]; intros result H.
  - injection H as <-. by rewrite app_nil_r.
  - simpl in H.
    destruct (computeScore _ _ _ e q) as [s|] eqn:Hs; simpl in H; [|done].
    destruct (0 <? s) eqn:Hpos.
    + assert (matches fold fold_undefined toLowerCase q e = true) as Hm
        by (unfold matches; by rewrite Hs).
      rewrite filter_cons_True by (by rewrite Hm).
      apply IH in H. rewrite H, fmap_app. simpl. by rewrite <- app_assoc.
    + assert (matches fold fold_undefined toLowerCase q e = false) as Hm
        by (unfold matches; by rewrite Hs).
      rewrite filter_cons_False by (rewrite Hm; simpl; tauto).
      by apply IH in H.
Qed.

Lemma matchQuery_loop_throws q entries result :
  matchQuery_loop fold fold_undefined toLowerCase gShortDefinitions q entries result
  = None ↔
  ∃ e, e ∈ entries ∧ computeScore fold fold_undefined toLowerCase e q = None.
Proof.
  revert result; induction entries as [|e entries IH]; intros result; simpl.
  - split; [done|]. by intros (e & []%elem_of_nil & _).
  - destruct (computeScore _ _ _ e q) as [s|] eqn:Hs; simpl.
    + assert ((∃ e0, e0 ∈ e :: entries
                 ∧ computeScore fold fold_undefined toLowerCase e0 q = None)
              ↔ ∃ e0, e0 ∈ entries
                 ∧ computeScore fold fold_undefined toLowerCase e0 q = None) as ->.
      { split.
        - intros (e0 & [->|He0]%elem_of_cons & H0); [congruence|eauto].
        - intros (e0 & He0 & H0). exists e0. split; [by right|done]. }
      destruct (0 <? s); apply IH.
    + split; [|done]. intros _. exists e. split; [left|done].
Qed.

(** X6: [matchQuery] returns, in the order of the dictionary, exactly the
    entries that score above 0; each result carries the score of its entry,
    between 1 and 100, and one element per element of the entry. *)
Theorem matchQuery_in_order dictionary q results :
  matchQuery fold fold_undefined toLowerCase gShortDefinitions (Some dictionary) q
  = Some results →
  spread <$> results = filter (matches fold fold_undefined toLowerCase q) dictionary
  ∧ Forall (λ r,
      computeScore fold fold_undefined toLowerCase (spread r) q = Some (score r)
      ∧ 1 ≤ score r ≤ 100
      ∧ elem_v <$> result_elements r = elements (spread r)) results.
Proof.
  intros H. split.
  - simpl in H. by apply matchQuery_loop_filter in H.
  - apply Forall_forall. intros r Hr.
    destruct (matchQuery_results _ _ _ _ _ _ _ H) as [_ Hout].
    destruct (Hout r Hr) as (e & He & Hs & Hpos & Heq).
    assert (spread r = e) as Hsp by (by rewrite Heq).
    rewrite Hsp. split; [done|]. split.
    + apply (computeScore_loop_range _ _ _ _ _ _ 0) in Hs; [lia | done].
    + rewrite Heq. simpl. rewrite <- list_fmap_compose.
      by rewrite list_fmap_id.
Qed.

(** X7: [matchQuery] throws exactly when the dictionary is [undefined] or
    [computeScore] throws at one of its entries. *)
Theorem matchQuery_throws_iff dictionary q :
  matchQuery fold fold_undefined toLowerCase gShortDefinitions dictionary q = None ↔
  dictionary = None
  ∨ ∃ d e, dictionary = Some d ∧ e ∈ d
           ∧ computeScore fold fold_undefined toLowerCase e q = None.
Proof.
  destruct dictionary as [d|]; simpl.
  - rewrite matchQuery_loop_throws. split.
    + intros (e & He & H). right. by exists d, e.
    + intros [?|(d' & e & [= <-] & He & H)]; [done|]. by exists e.
  - split; [by left | done].
Qed.

(** X8: when the dictionary was read from [eldamo-data.json] the table of
    short glosses stays empty, and every element of every result has the
    empty gloss. *)
Theorem json_dictionary_has_no_glosses d xml q results :
  matchQuery fold fold_undefined toLowerCase
    (gShortDefinitions_loaded fold fold_undefined toLowerCase (Some d) xml)
    (loadDictionary fold fold_undefined toLowerCase (Some d) xml) q
  = Some results →
  ∀ r el, r ∈ results → el ∈ result_elements r → elem_gloss el = [].
Proof.
  intros H r el Hr Hel.
  destruct (matchQuery_results _ _ _ _ _ _ _ H) as [_ Hout].
  destruct (Hout r Hr) as (e & _ & _ & _ & Heq).
  rewrite Heq in Hel. simpl in Hel.
  apply list_elem_of_fmap in Hel as (x & -> & _). reflexivity.
Qed.

End QueryOrder.

Lemma matchQuery_in_order_witness :
  matchQuery fold_ascii None toLowerCase_latin lexicon_table
    (Some lexicon_entries) (js "ar")
  = Some [ result_for lexicon_table (js "ar") ar 100;
           result_for lexicon_table (js "ar") aran 49 ]
  ∧ [ar; aran] = filter (matches fold_ascii None toLowerCase_latin (js "ar"))
                   lexicon_entries.
Proof.
  assert (matchQuery fold_ascii None toLowerCase_latin lexicon_table
            (Some lexicon_entries) (js "ar")
          = Some [ result_for lexicon_table (js "ar") ar 100;
                   result_for lexicon_table (js "ar") aran 49 ]) as H
    by (vm_compute; reflexivity).
  split; [exact H|].
  exact (proj1 (matchQuery_in_order fold_ascii None toLowerCase_latin
                  lexicon_table lexicon_entries (js "ar") _ H)).
Defined.

Lemma json_dictionary_has_no_glosses_witness :
  matchQuery fold_ascii None toLowerCase_latin
    (gShortDefinitions_loaded fold_ascii None toLowerCase_latin
       (Some lexicon_entries) (Some lexicon))
    (loadDictionary fold_ascii None toLowerCase_latin
       (Some lexicon_entries) (Some lexicon)) (js "aran")
  = Some [ result_for ∅ (js "aran") aran 100 ]
  ∧ ∀ r el, r ∈ [ result_for ∅ (js "aran") aran 100 ] →
      el ∈ result_elements r → elem_gloss el = [].
Proof.
  assert (matchQuery fold_ascii None toLowerCase_latin
    (gShortDefinitions_loaded fold_ascii None toLowerCase_latin
       (Some lexicon_entries) (Some lexicon))
    (loadDictionary fold_ascii None toLowerCase_latin
       (Some lexicon_entries) (Some lexicon)) (js "aran")
  = Some [ result_for ∅ (js "aran") aran 100 ]) as H by (vm_compute; reflexivity).
  split; [exact H|].
  exact (json_dictionary_has_no_glosses fold_ascii None toLowerCase_latin
           lexicon_entries (Some lexicon) (js "aran") _ H).
Defined.

(** ** Tokenizer and compiler: tokens, document order, lookup *)

Lemma mapM_option_app {A B} (f : A → option B) (l1 l2 : list A) :
  mapM f (l1 ++ l2) = (a ← mapM f l1; b ← mapM f l2; Some (a ++ b)).
Proof.
  induction l1 as [|x l1 IH]; simpl.
  - by destruct (mapM f l2).
  - destruct (f x) as [y|]; simpl; [|done]. rewrite IH.
    destruct (mapM f l1) as [a|]; simpl; [|done].
    by destruct (mapM f l2).
Qed.

Lemma mapM_option_elem {A B} (f : A → option B) (l : list A) k x :
  mapM f l = Some k → x ∈ l → ∃ y, f x = Some y ∧ y ∈ k.
Proof.
  revert k; induction l as [|z l IH]; intros k H Hx; [by apply elem_of_nil in Hx|].
  simpl in H. destruct (f z) as [y|] eqn:Hy; simpl in H; [|done].
  destruct (mapM f l) as [k'|]; simpl in H; [|done]. injection H as <-.
  apply elem_of_cons in Hx as [->|Hx].
  - exists y. split; [done | left].
  - destruct (IH k' eq_refl Hx) as (y' & ? & ?). exists y'. split; [done | by right].
Qed.

Lemma mapM_option_elem_inv {A B} (f : A → option B) (l : list A) k y :
  mapM f l = Some k → y ∈ k → ∃ x, x ∈ l ∧ f x = Some y.
Proof.
  revert k; induction l as [|z l IH]; intros k H Hy; simpl in H.
  - injection H as <-. by apply elem_of_nil in Hy.
  - destruct (f z) as [y0|] eqn:Hy0; simpl in H; [|done].
    destruct (mapM f l) as [k'|]; simpl in H; [|done]. injection H as <-.
    apply elem_of_cons in Hy as [->|Hy].
    + exists z. split; [left | done].
    + destruct (IH k' eq_refl Hy) as (x & ? & ?). exists x. split; [by right | done].
Qed.

Lemma mapM_option_None {A B} (f : A → option B) (l : list A) :
  mapM f l = None ↔ ∃ x, x ∈ l ∧ f x = None.
Proof.
  induction l as [|z l IH]; simpl.
  - split; [done|]. by intros (x & []%elem_of_nil & _).
  - destruct (f z) as [y|] eqn:Hy; simpl.
    + destruct (mapM f l) as [k|]; simpl.
      * split; [done|]. intros (x & [->|Hx]%elem_of_cons & Hn); [congruence|].
        assert (Some k = None) by (apply IH; eauto). done.
      * split; [|done]. intros _. destruct (proj1 IH eq_refl) as (x & ? & ?).
        exists x. split; [by right | done].
    + split; [|done]. intros _. exists z. split; [left | done].
Qed.

Lemma split_pieces sep s p c : p ∈ split sep s → c ∈ p → sep c = false.
Proof.
  revert p; induction s as [|d s IH]; intros p Hp Hc; simpl in Hp.
  - apply list_elem_of_singleton in Hp as ->. by apply elem_of_nil in Hc.
  - destruct (sep d) eqn:Hd.
    + apply elem_of_cons in Hp as [->|Hp]; [by apply elem_of_nil in Hc | by eapply IH].
    + destruct (split sep s) as [|p0 ps] eqn:Hs.
      * apply list_elem_of_singleton in Hp as ->.
        by apply list_elem_of_singleton in Hc as ->.
      * apply elem_of_cons in Hp as [->|Hp].
        -- apply elem_of_cons in Hc as [->|Hc]; [done|]. eapply IH; [left | done].
        -- eapply IH; [by right | done].
Qed.

Lemma split_whole sep s : (∀ c, c ∈ s → sep c = false) → split sep s = [s].
Proof.
  induction s as [|d s IH]; intros H; [done|]. simpl.
  rewrite H by left. rewrite IH; [done|]. intros c Hc. apply H. by right.
Qed.


(** What the inner loop keeps of a candidate word. *)
Lemma indexWord_kept word t :
  indexWord word = Some t →
  t ≠ [] ∧ t `suffix_of` word ∧ existsb isDigit t = false ∧ t ∉ STOP_WORDS.
Proof.
  unfold indexWord. destruct word as [|firstChar rest]; [done|].
  set (w1 := if isLeadingMarker firstChar then _ else _).
  assert (w1 `suffix_of` firstChar :: rest) as Hsuf.
  { subst w1. destruct (isLeadingMarker firstChar); [|done].
    rewrite substring_from_1. by apply suffix_cons_r. }
  set (w2 := match last w1 with Some _ => _ | None => _ end).
  assert (w2 = [] ∨ w2 = w1) as Hw2.
  { subst w2. destruct (last w1) as [l|]; [|by right].
    destruct (isClosingBracket l); [left; apply substring_0_neg | by right]. }
  destruct (bool_decide (w2 ≠ [])) eqn:E1; simpl; [|done].
  apply bool_decide_eq_true in E1.
  destruct (existsb isDigit w2) eqn:E2; simpl; [done|].
  destruct (bool_decide (w2 ∈ STOP_WORDS)) eqn:E3; simpl; [done|].
  apply bool_decide_eq_false in E3. intros [= <-].
  destruct Hw2 as [?|Hw2]; [done|]. rewrite Hw2 in *. done.
Qed.

Section CompilerMore.

Variable fold : jsstring -> jsstring.
Variable fold_undefined : option jsstring.
Variable toLowerCase : jsstring -> jsstring.


(** The index starts with the words of the folded headword. *)
Lemma computeIndex_headword node idx :
  computeIndex fold fold_undefined toLowerCase node = Some idx →
  ∃ lemma gl,
    fold_toLowerCase fold fold_undefined toLowerCase (attr_v (attr node)) = Some lemma
    ∧ idx = filter (λ word, word ≠ []) (split isSpace lemma) ++ gl.
Proof.
  unfold computeIndex. intros H.
  destruct (fold_toLowerCase _ _ _ _) as [lemma|]; simpl in H; [|done].
  injection H as <-. by eexists lemma, _.
Qed.

(** No token is empty or holds a space. *)
Lemma computeIndex_no_space node idx :
  computeIndex fold fold_undefined toLowerCase node = Some idx →
  Forall (λ t, t ≠ [] ∧ 32%N ∉ t) idx.
Proof.
  unfold computeIndex. intros H.
  destruct (fold_toLowerCase _ _ _ _) as [lemma|]; simpl in H; [|done].
  injection H as <-.
  assert (∀ s p, p ∈ split isSpace s → 32%N ∉ p) as Hsp.
  { intros s p Hp Hin. by apply (split_pieces _ _ _ _ Hp) in Hin. }
  apply Forall_app. split; apply Forall_forall.
  - intros w [Hw Hin]%list_elem_of_filter. split; [done|]. by eapply Hsp.
  - intros w (phrase & Hw & _)%list_elem_of_bind.
    apply list_elem_of_omap in Hw as (word & Hword & Hw).
    apply indexWord_kept in Hw as (Hne & [pre ->] & _). split; [done|].
    intros Hin. apply (Hsp _ _ Hword). apply elem_of_app. by right.
Qed.


End CompilerMore.

Section CompilerOrder.

Variable fold : jsstring -> jsstring.
Variable fold_undefined : option jsstring.
Variable toLowerCase : jsstring -> jsstring.


(** The recursion as one pass over the qualifying nodes in document order. *)
Lemma compileDictionaryRecursive_mapM node :
  compileDictionaryRecursive fold fold_undefined toLowerCase node
  = mapM (λ n, makeEntry fold fold_undefined toLowerCase n (speech n))
      (filter is_entry (preorder node)).
Proof.
  induction node as [n a t cs IH] using XmlElement_children_ind.
  cbn [compileDictionaryRecursive preorder].
  set (kids := (fix eachChild (cs : list XmlElement) : option (list DictionaryEntry) :=
                  match cs with
                  | [] => Some []
                  | child :: cs' =>
                      r ← compileDictionaryRecursive fold fold_undefined toLowerCase child;
                      rs ← eachChild cs'; Some (r ++ rs)
                  end) cs).
  set (below := (fix eachChild (cs : list XmlElement) : list XmlElement :=
                   match cs with
                   | [] => []
                   | child :: cs' => preorder child ++ eachChild cs'
                   end) cs).
  assert (kids = mapM (λ n, makeEntry fold fold_undefined toLowerCase n (speech n))
                   (filter is_entry below)) as ->.
  { subst kids below. induction IH as [|c cs Hc _ IHcs]; [done|].
    rewrite filter_app, mapM_option_app, <- Hc, <- IHcs. done. }
  unfold filter at 2. cbn [list_filter]. fold (filter is_entry below).
  destruct (is_entry (XmlNode n a t cs)) eqn:E.
  - rewrite decide_True by done. cbn [mapM]. unfold speech at 1. cbn [attr].
    unfold is_entry, speech in E. cbn [name attr] in E.
    apply andb_true_iff in E as [-> ->].
    destruct (makeEntry _ _ _ _ _); simpl; [|done]. by destruct (mapM _ _).
  - rewrite decide_False by (simpl; tauto).
    unfold is_entry, speech in E. cbn [name attr] in E.
    apply andb_false_iff in E as [-> | ->]; [|destruct (bool_decide _)];
      by destruct (mapM _ _).
Qed.

(** X10: the compiled list has one entry for each [word] node whose part of
    speech is not excluded, nested nodes included, in document order; its
    headwords are the corrected headwords of these nodes. *)
Theorem compileDictionaryRecursive_preorder root entries :
  compileDictionaryRecursive fold fold_undefined toLowerCase root = Some entries →
  Forall2 (λ n e, makeEntry fold fold_undefined toLowerCase n (speech n) = Some e)
    (filter is_entry (preorder root)) entries
  ∧ v <$> entries
    = correctTengwar toLowerCase <$> filter is_entry (preorder root).
Proof.
  rewrite compileDictionaryRecursive_mapM. intros H%mapM_Some.
  split; [done|].
  induction H as [|n e ns es Hne _ IH]; [done|]. simpl. f_equal; [|done].
  unfold makeEntry in Hne.
  destruct (computeIndex _ _ _ n); simpl in Hne; [|done]. by injection Hne as <-.
Qed.

Lemma makeEntry_None n p :
  makeEntry fold fold_undefined toLowerCase n p = None ↔
  fold_undefined = None ∧ attr_v (attr n) = None.
Proof.
  unfold makeEntry, computeIndex, fold_toLowerCase.
  destruct (attr_v (attr n)), fold_undefined; simpl; intuition congruence.
Qed.

(** X11: compiling throws exactly when folding [undefined] throws and some
    qualifying [word] node has no [v] attribute. *)
Theorem compileDictionaryRecursive_throws_iff root :
  compileDictionaryRecursive fold fold_undefined toLowerCase root = None ↔
  fold_undefined = None
  ∧ ∃ n, n ∈ preorder root ∧ is_entry n = true ∧ attr_v (attr n) = None.
Proof.
  rewrite compileDictionaryRecursive_mapM, mapM_option_None. split.
  - intros (n & [Hn Hin]%list_elem_of_filter & [Hf Hv]%makeEntry_None).
    split; [done|]. exists n. split; [done|]. split; [|done].
    by apply Is_true_true.
  - intros (Hf & n & Hin & Hn & Hv). exists n. split.
    + apply list_elem_of_filter. split; [by apply Is_true_true | done].
    + by apply makeEntry_None.
Qed.

(** The entries come from the qualifying nodes. *)
Lemma compiled_entry_origin root entries e :
  compileDictionaryRecursive fold fold_undefined toLowerCase root = Some entries →
  e ∈ entries →
  ∃ n, n ∈ preorder root ∧ is_entry n = true
       ∧ makeEntry fold fold_undefined toLowerCase n (speech n) = Some e.
Proof.
  rewrite compileDictionaryRecursive_mapM. intros H He.
  destruct (mapM_option_elem_inv _ _ _ _ H He) as (n & [Hn Hin]%list_elem_of_filter & Hm).
  exists n. split; [done|]. split; [by apply Is_true_true | done].
Qed.

(** The tokens of compiled entries are non-empty and hold no space. *)
Lemma compiled_entries_tokens root entries :
  compileDictionaryRecursive fold fold_undefined toLowerCase root = Some entries →
  Forall (λ e, Forall (λ t, t ≠ [] ∧ 32%N ∉ t) (index e)) entries.
Proof.
  intros Hes. apply Forall_forall. intros e He.
  destruct (compiled_entry_origin _ _ _ Hes He) as (n & _ & Hn & Hm).
  unfold makeEntry in Hm.
  destruct (computeIndex _ _ _ n) as [idx|] eqn:Hidx; simpl in Hm; [|done].
  injection Hm as <-. simpl. by eapply computeIndex_no_space.
Qed.

(** X12: no compiled entry has an excluded part of speech, and no token of
    a compiled entry is empty or holds a space. *)
Theorem compiled_entries_well_formed root table0 dictionary table1 :
  compileDictionary fold fold_undefined toLowerCase root table0
  = Some (dictionary, table1) →
  Forall (λ e, (pos e ∉ excluded_pos)
               ∧ Forall (λ t, t ≠ [] ∧ 32%N ∉ t) (index e)) dictionary.
Proof.
  unfold compileDictionary. intros H.
  destruct (compileDictionaryRecursive _ _ _ root) as [es|] eqn:Hes;
    simpl in H; [|done].
  injection H as <- _.
  pose proof (compiled_entries_tokens _ _ Hes) as Htok.
  rewrite Forall_forall in Htok. apply Forall_forall. intros e He.
  split; [|by apply Htok].
  destruct (compiled_entry_origin _ _ _ Hes He) as (n & _ & Hn & Hm).
  unfold makeEntry in Hm.
  destruct (computeIndex _ _ _ n) as [idx|]; simpl in Hm; [|done].
  injection Hm as <-. simpl.
  unfold is_entry in Hn. apply andb_true_iff in Hn as [_ Hn].
  by apply bool_decide_eq_true in Hn.
Qed.

End CompilerOrder.

Section Lookup.

Variable fold : jsstring -> jsstring.
Variable fold_undefined : option jsstring.
Variable toLowerCase : jsstring -> jsstring.
Variable gShortDefinitions : gmap (option jsstring) jsstring.

(** An entry none of whose tokens contains the query scores 0. *)
Lemma computeScore_no_occurrence node q :
  (∀ t a b, t ∈ index node → t ≠ a ++ q ++ b) →
  computeScore fold fold_undefined toLowerCase node q = Some 0.
Proof.
  intros Hno. unfold computeScore.
  assert (q ∉ index node) as Hout.
  { intros Hin. apply (Hno q [] [] Hin). by rewrite app_nil_r. }
  rewrite computeScore_loop_best by done. f_equal.
  apply Math_round_small; [apply best_ge_score|].
  apply best_upper; [|done]. intros w Hw.
  apply Qnot_lt_le. intros Hpos.
  apply computeWordScore_positive in Hpos as (a & b & Heq).
  by apply (Hno w a b).
Qed.

Lemma matchQuery_loop_no_match q entries result :
  Forall (λ e, computeScore fold fold_undefined toLowerCase e q = Some 0) entries →
  matchQuery_loop fold fold_undefined toLowerCase gShortDefinitions q entries result
  = Some result.
Proof.
  intros He. revert result; induction He as [|e entries Hs _ IH]; intros result;
    [done|].
  simpl. rewrite Hs. simpl. apply IH.
Qed.

(** X13: against a compiled dictionary a query that holds a space matches
    no entry. *)
Theorem query_with_space_matches_nothing root table0 dictionary table1 q :
  compileDictionary fold fold_undefined toLowerCase root table0
  = Some (dictionary, table1) →
  32%N ∈ q →
  matchQuery fold fold_undefined toLowerCase gShortDefinitions (Some dictionary) q
  = Some [].
Proof.
  unfold compileDictionary. intros Hc Hq.
  destruct (compileDictionaryRecursive _ _ _ root) as [es|] eqn:Hes;
    simpl in Hc; [|done].
  injection Hc as <- _. simpl. apply matchQuery_loop_no_match.
  eapply Forall_impl; [by eapply compiled_entries_tokens|].
  intros e Htok. apply computeScore_no_occurrence.
  intros t a b Ht ->. rewrite Forall_forall in Htok.
  destruct (Htok _ Ht) as [_ Hsp]. apply Hsp.
  rewrite !elem_of_app. right. by left.
Qed.

(** X14: a qualifying [word] node without tengwar hint whose folded headword
    is one non-empty word is compiled into an entry that scores 100 for that
    folded headword. *)
Theorem headword_lookup root table0 dictionary table1 n s :
  compileDictionary fold fold_undefined toLowerCase root table0
  = Some (dictionary, table1) →
  n ∈ preorder root → is_entry n = true →
  attr_v (attr n) = Some s → attr_tengwar (attr n) = None →
  toLowerCase (fold s) ≠ [] → 32%N ∉ toLowerCase (fold s) →
  ∃ e, e ∈ dictionary ∧ v e = Some s
       ∧ computeScore fold fold_undefined toLowerCase e (toLowerCase (fold s))
         = Some 100.
Proof.
  unfold compileDictionary. intros H Hin Hn Hv Ht Hne Hsp.
  destruct (compileDictionaryRecursive _ _ _ root) as [es|] eqn:Hes;
    simpl in H; [|done].
  injection H as <- _.
  rewrite compileDictionaryRecursive_mapM in Hes.
  destruct (mapM_option_elem _ _ _ n Hes) as (e & He & Hein).
  { apply list_elem_of_filter. split; [by apply Is_true_true | done]. }
  exists e. split; [done|].
  unfold makeEntry in He.
  destruct (computeIndex _ _ _ n) as [idx|] eqn:Hidx; simpl in He; [|done].
  injection He as <-. simpl.
  split. { rewrite correctTengwar_unhinted by tauto. done. }
  destruct (computeIndex_headword _ _ _ _ _ Hidx) as (lemma & gl & Hl & ->).
  rewrite Hv in Hl. simpl in Hl. injection Hl as <-.
  rewrite split_whole
    by (intros c Hc; unfold isSpace; apply N.eqb_neq; by intros ->).
  rewrite filter_cons_True by done.
  unfold computeScore.
  pose proof (computeScore_loop_match fold fold_undefined toLowerCase) as Hm.
  cbv zeta in Hm. rewrite Hm; [|done|simpl; left].
  simpl. rewrite correctTengwar_unhinted by tauto. rewrite Hv. simpl.
  by rewrite decide_True.
Qed.

End Lookup.

Lemma query_with_space_matches_nothing_witness :
  compileDictionary fold_ascii None toLowerCase_latin lexicon ∅
  = Some (lexicon_entries, lexicon_table)
  ∧ matchQuery fold_ascii None toLowerCase_latin lexicon_table
      (Some lexicon_entries) (js "ar an") = Some [].
Proof.
  assert (compileDictionary fold_ascii None toLowerCase_latin lexicon ∅
          = Some (lexicon_entries, lexicon_table)) as H
    by (vm_compute; reflexivity).
  split; [exact H|].
  apply (query_with_space_matches_nothing fold_ascii None toLowerCase_latin
           lexicon_table lexicon ∅ lexicon_entries lexicon_table (js "ar an") H).
  vm_compute. set_solver.
Defined.


Lemma compileDictionaryRecursive_preorder_witness :
  Forall2 (λ n e, makeEntry fold_ascii None toLowerCase_latin n (speech n) = Some e)
    (filter is_entry (preorder lexicon)) lexicon_entries
  ∧ v <$> lexicon_entries
    = correctTengwar toLowerCase_latin <$> filter is_entry (preorder lexicon).
Proof.
  apply (compileDictionaryRecursive_preorder fold_ascii None toLowerCase_latin
           lexicon lexicon_entries).
  reflexivity.
Defined.

Lemma compiled_entries_well_formed_witness :
  Forall (λ e, (pos e ∉ excluded_pos)
               ∧ Forall (λ t, t ≠ [] ∧ 32%N ∉ t) (index e)) lexicon_entries.
Proof.
  apply (compiled_entries_well_formed fold_ascii None toLowerCase_latin
           lexicon ∅ lexicon_entries lexicon_table).
  vm_compute. reflexivity.
Defined.

Lemma headword_lookup_witness :
  ∃ e, e ∈ lexicon_entries ∧ v e = Some (js "aran")
       ∧ computeScore fold_ascii None toLowerCase_latin e
           (toLowerCase_latin (fold_ascii (js "aran"))) = Some 100.
Proof.
  apply (headword_lookup fold_ascii None toLowerCase_latin
           lexicon ∅ lexicon_entries lexicon_table aran_node (js "aran")).
  - vm_compute. reflexivity.
  - cbn. do 2 apply list_elem_of_further. apply list_elem_of_here.
  - reflexivity.
  - reflexivity.
  - reflexivity.
  - vm_compute. discriminate.
  - compute_done.
Defined.

(** ** Tengwar correction by hint *)

Section TengwarMore.

Variable toLowerCase : jsstring -> jsstring.

(** X15: where lower-casing the headword works unit by unit and yields [s]
    from [s] and [S] only, [correctTengwar] returns the spelling its hint asks
    for: the nasal rule for [ñ] and [ñ-], the sibilant rule for [þ] and [þ-],
    the fixed spelling for [ñorþus], the headword itself for any other
    hint. *)
Theorem correctTengwar_by_hint node v hint (f : N → N) :
  attr_v (attr node) = Some v → v ≠ [] →
  attr_tengwar (attr node) = Some hint → hint ≠ [] →
  toLowerCase v = f <$> v →
  (∀ c, c ∈ v → f c = 115%N ↔ c = 115%N ∨ c = 83%N) →
  correctTengwar toLowerCase node = Some (corrected hint v).
Proof.
  intros Hv Hne Ht Hhint Hlow Hf. unfold corrected.
  destruct (decide (hint = [ntilde] ∨ hint = [ntilde] ++ js "-")) as [Hn|Hn].
  { by eapply correctTengwar_nasal. }
  destruct (decide (hint = [thorn] ∨ hint = [thorn] ++ js "-")) as [Hs|Hs].
  { by eapply correctTengwar_sibilant. }
  destruct (decide (hint = northus)) as [->|Hno].
  { by eapply correctTengwar_northus. }
  unfold correctTengwar. rewrite Hv, Ht.
  destruct v as [|c v]; [done|]. destruct hint as [|d hint]; [done|].
  rewrite (bool_decide_eq_false_2 (d :: hint = [ntilde])) by tauto.
  rewrite (bool_decide_eq_false_2 (d :: hint = [ntilde] ++ js "-")) by tauto.
  rewrite (bool_decide_eq_false_2 (d :: hint = [thorn])) by tauto.
  rewrite (bool_decide_eq_false_2 (d :: hint = [thorn] ++ js "-")) by tauto.
  rewrite (bool_decide_eq_false_2 (d :: hint = northus)) by tauto.
  done.
Qed.

End TengwarMore.

Lemma correctTengwar_by_hint_witness :
  correctTengwar toLowerCase_latin (hinted_node (js "Isil") [thorn])
  = Some ([73%N; thorn] ++ js "il").
Proof.
  apply (correctTengwar_by_hint toLowerCase_latin
           (hinted_node (js "Isil") [thorn]) (js "Isil") [thorn] lowerLatin);
    try reflexivity; try done.
  intros c _. apply lowerLatin_s.
Defined.

Local Close Scope Z_scope.

(** ** The short-gloss table after a compilation *)

Lemma short_gloss_of_Some e g :
  short_gloss_of e = Some g ↔ gloss e = Some g ∧ g ≠ [] ∧ g ≠ unglossed.
Proof.
  unfold short_gloss_of. destruct (gloss e) as [[|c g']|].
  - split; [done|]. by intros ([= <-] & ? & _).
  - case_bool_decide as Hu.
    + split; [by intros [= <-] | by intros ([= <-] & _)].
    + split; [done|]. by intros ([= <-] & _ & ?).
  - split; [done | by intros [? _]].
Qed.

Lemma addShortDefinition_other table e k :
  v e ≠ k → addShortDefinition table e !! k = table !! k.
Proof.
  intros Hk. rewrite addShortDefinition_eq.
  destruct (short_gloss_of e) as [g|]; [|done].
  destruct (table !! v e) as [def|]; [case_bool_decide|]; [|done|];
    by rewrite lookup_insert_ne.
Qed.

Lemma foldl_addShortDefinition_value (entries : list DictionaryEntry)
    (table : gmap (option jsstring) jsstring) k :
  match table !! k with
  | Some def =>
      ∃ gs, gs `sublist_of` glosses_of k entries
            ∧ foldl addShortDefinition table entries !! k
              = Some (merge_glosses def gs)
  | None =>
      match glosses_of k entries with
      | [] => foldl addShortDefinition table entries !! k = None
      | g :: rest =>
          ∃ gs, gs `sublist_of` rest
                ∧ foldl addShortDefinition table entries !! k
                  = Some (merge_glosses g gs)
      end
  end.
Proof.
  revert table; induction entries as [|e entries IH]; intros table.
  - simpl. destruct (table !! k) as [def|] eqn:E; [|done]. by exists [].
  - simpl. specialize (IH (addShortDefinition table e)).
    unfold glosses_of at 1 2. cbn [omap list_omap]. fold (glosses_of k entries).
    destruct (decide (v e = k)) as [<-|Hk].
    2: { rewrite addShortDefinition_other in IH by done.
         exact IH. }
    rewrite addShortDefinition_eq in IH |- *.
    destruct (short_gloss_of e) as [g|] eqn:Hg; cbv beta iota.
    2: { exact IH. }
    destruct (table !! v e) as [def|] eqn:E.
    + case_bool_decide as Hd.
      * rewrite lookup_insert_eq in IH. destruct IH as (gs & Hgs & ->).
        exists (g :: gs). split; [by apply sublist_skip | done].
      * rewrite E in IH. destruct IH as (gs & Hgs & ->).
        exists gs. split; [by apply sublist_cons | done].
    + rewrite lookup_insert_eq in IH. done.
Qed.

Section TableFacts.

Variable fold : jsstring -> jsstring.
Variable fold_undefined : option jsstring.
Variable toLowerCase : jsstring -> jsstring.

(** X16: after a compilation from the empty table, the table holds for a
    headword the first gloss met for it, followed, each behind [" / "], by
    later glosses of that headword in the order of the entries; it holds
    nothing for a headword without gloss. *)
Theorem short_definitions_value root entries table k :
  compileDictionary fold fold_undefined toLowerCase root ∅ = Some (entries, table) →
  match glosses_of k entries with
  | [] => table !! k = None
  | g :: rest =>
      ∃ gs, gs `sublist_of` rest ∧ table !! k = Some (merge_glosses g gs)
  end.
Proof.
  unfold compileDictionary. intros H.
  destruct (compileDictionaryRecursive _ _ _ root) as [es|]; simpl in H; [|done].
  injection H as <- <-.
  pose proof (foldl_addShortDefinition_value es ∅ k) as Hv.
  by rewrite lookup_empty in Hv.
Qed.

(** X17: after a compilation from the empty table, a headword is in the
    table exactly when some entry of that headword has a gloss that is neither
    empty nor ["[unglossed]"]. *)
Theorem short_definitions_domain root entries table k :
  compileDictionary fold fold_undefined toLowerCase root ∅ = Some (entries, table) →
  is_Some (table !! k) ↔
  ∃ e g, e ∈ entries ∧ v e = k ∧ gloss e = Some g ∧ g ≠ [] ∧ g ≠ unglossed.
Proof.
  unfold compileDictionary. intros H.
  destruct (compileDictionaryRecursive _ _ _ root) as [es|]; simpl in H; [|done].
  injection H as <- <-.
  pose proof (foldl_addShortDefinition_value es ∅ k) as Hv.
  rewrite lookup_empty in Hv. set (entries := es) in *.
  set (table := foldl addShortDefinition ∅ es) in *.
  assert (glosses_of k entries ≠ [] ↔
          ∃ e g, e ∈ entries ∧ v e = k ∧ gloss e = Some g ∧ g ≠ [] ∧ g ≠ unglossed)
    as <-.
  { split.
    - destruct (glosses_of k entries) as [|g rest] eqn:E; [done|]. intros _.
      assert (g ∈ glosses_of k entries) as Hg by (rewrite E; left).
      apply list_elem_of_omap in Hg as (e & He & Hg).
      destruct (decide (v e = k)); [|done].
      apply short_gloss_of_Some in Hg. by exists e, g.
    - intros (e & g & He & Hk & Hg) Hnil.
      assert (g ∈ glosses_of k entries) as Hin.
      { apply list_elem_of_omap. exists e. split; [done|].
        rewrite decide_True by done. by apply short_gloss_of_Some. }
      rewrite Hnil in Hin. by apply elem_of_nil in Hin. }
  destruct (glosses_of k entries) as [|g rest].
  - rewrite Hv. split; [by intros [? ?] | done].
  - destruct Hv as (gs & _ & ->). split; [done | by eexists].
Qed.

End TableFacts.

Lemma short_definitions_value_witness :
  compileDictionary fold_ascii None toLowerCase_latin lexicon_two_glosses ∅
  = Some ([ entry_of (js "ar") (Some (js "noble")) [js "ar"; js "noble"] [];
            entry_of (js "ar") (Some (js "beside")) [js "ar"; js "beside"] [] ],
          <[Some (js "ar") := js "noble / beside"]> ∅)
  ∧ ∃ gs, gs `sublist_of` [js "beside"]
          ∧ (<[Some (js "ar") := js "noble / beside"]> ∅ : gmap (option jsstring) jsstring)
              !! Some (js "ar")
            = Some (merge_glosses (js "noble") gs).
Proof.
  assert (compileDictionary fold_ascii None toLowerCase_latin lexicon_two_glosses ∅
  = Some ([ entry_of (js "ar") (Some (js "noble")) [js "ar"; js "noble"] [];
            entry_of (js "ar") (Some (js "beside")) [js "ar"; js "beside"] [] ],
          <[Some (js "ar") := js "noble / beside"]> ∅)) as H
    by (vm_compute; reflexivity).
  split; [exact H|].
  exact (short_definitions_value fold_ascii None toLowerCase_latin
           lexicon_two_glosses _ _ (Some (js "ar")) H).
Defined.

Lemma short_definitions_domain_witness :
  is_Some (lexicon_table !! Some (js "aran")) ↔
  ∃ e g, e ∈ lexicon_entries ∧ v e = Some (js "aran") ∧ gloss e = Some g
         ∧ g ≠ [] ∧ g ≠ unglossed.
Proof.
  apply (short_definitions_domain fold_ascii None toLowerCase_latin
           lexicon lexicon_entries lexicon_table (Some (js "aran"))).
  vm_compute. reflexivity.
Defined.

(** ** Ring cache: empty slots and survival *)

Lemma length_view r : length (view r) = length (gRing r).
Proof. by rewrite view_Permutation. Qed.

Lemma omap_id_packed {A} h (c : list A) :
  omap id (replicate h None ++ (Some <$> c)) = c.
Proof.
  induction h as [|h IH]; simpl; [|done].
  induction c as [|x c IHc]; [done|]. cbn. f_equal. exact IHc.
Qed.

Lemma packed_intro r h c :
  ring_ok r → view r = replicate h None ++ (Some <$> c) →
  contents r = c ∧ h = RING_SIZE - length c ∧ packed r.
Proof.
  intros [Hl _] Hv.
  assert (contents r = c) as Hc by (unfold contents; by rewrite Hv, omap_id_packed).
  assert (h = RING_SIZE - length c) as Hh.
  { pose proof (length_view r) as Hlen.
    rewrite Hv, length_app, length_replicate, length_fmap in Hlen. lia. }
  split; [done|]. split; [done|]. unfold packed. rewrite Hc. by rewrite <- Hh.
Qed.

Lemma admissible_app r ops1 ops2 :
  admissible r (ops1 ++ ops2) ↔
  admissible r ops1 ∧ admissible (foldl ring_step r ops1) ops2.
Proof.
  revert r; induction ops1 as [|op ops1 IH]; intros r; simpl; [tauto|].
  rewrite IH. tauto.
Qed.

(** One operation of an admissible run on a packed ring. *)
Lemma ring_step_packed r op :
  ring_inv r → packed r → admissible_op r op →
  packed (ring_step r op)
  ∧ RING_SIZE - length (contents (ring_step r op))
    ≤ Nat.max 1 (RING_SIZE - length (contents r)).
Proof.
  intros Hinv Hp Hop.
  destruct (ring_step_keys r op Hinv Hop) as [[Hok' _] _].
  pose proof Hinv as (Hok & _ & _).
  unfold packed in Hp.
  remember (RING_SIZE - length (contents r)) as h eqn:Hh.
  assert (∃ h' c', view (ring_step r op) = replicate h' None ++ (Some <$> c')
                   ∧ h' ≤ Nat.max 1 h) as (h' & c' & Hv' & Hh').
  { destruct op as [k v|k]; simpl.
    - rewrite addToRing_view by done. rewrite Hp.
      destruct h as [|h0]; simpl.
      + exists 0, (tail (contents r) ++ [ {| key := k; value := v |} ]).
        split; [|lia]. simpl. rewrite fmap_app. by destruct (contents r).
      + exists h0, (contents r ++ [ {| key := k; value := v |} ]).
        split; [|lia]. by rewrite fmap_app, app_assoc.
    - destruct (decide (k ∈ ring_keys r)) as [Hk|Hk].
      2: { rewrite getFromRing_miss by done. simpl. exists h, (contents r).
           split; [exact Hp | lia]. }
      unfold ring_keys in Hk. apply list_elem_of_fmap in Hk as (s & -> & Hs).
      apply list_elem_of_split in Hs as (l1 & l2 & Hc).
      destruct (getFromRing_hit_view r (replicate h None ++ (Some <$> l1)) s
                  (Some <$> l2) Hinv) as (r' & Hg & _ & Hv').
      { rewrite Hp, Hc, fmap_app, fmap_cons. by rewrite <- app_assoc. }
      rewrite Hg. simpl. rewrite Hv'.
      destruct h as [|h0]; simpl.
      + destruct l1 as [|x l1]; simpl.
        * exists 0, (l2 ++ [s]). split; [|lia]. by rewrite fmap_app.
        * exists 1, (l1 ++ l2 ++ [s]). split; [|lia]. simpl.
          by rewrite !fmap_app.
      + exists (S h0), (l1 ++ l2 ++ [s]). split; [|lia]. simpl.
        by rewrite !fmap_app, <- !app_assoc. }
  destruct (packed_intro _ _ _ Hok' Hv') as (Hc' & Hh'' & Hp').
  split; [done|]. rewrite Hc', <- Hh''. done.
Qed.

Lemma emptyRing_packed : packed emptyRing.
Proof. reflexivity. Qed.

Lemma admissible_packed r ops :
  ring_inv r → packed r → admissible r ops →
  packed (foldl ring_step r ops)
  ∧ RING_SIZE - length (contents (foldl ring_step r ops))
    ≤ Nat.max 1 (RING_SIZE - length (contents r)).
Proof.
  revert r; induction ops as [|op ops IH]; intros r Hinv Hp Hadm; simpl.
  - split; [done | lia].
  - destruct Hadm as [Hop Hadm].
    destruct (ring_step_packed r op Hinv Hp Hop) as [Hp' Hh'].
    destruct (IH (ring_step r op)) as [Hp'' Hh'']; [|done..|].
    { by apply ring_step_keys. }
    split; [done | lia].
Qed.

(** X18: in every admissible run from the empty ring the empty slots form
    one block that starts under the cursor; so the slot [addToRing] overwrites
    holds an entry exactly when all [RING_SIZE] slots do. *)
Theorem ring_empty_slots_at_cursor ops :
  admissible emptyRing ops →
  packed (foldl ring_step emptyRing ops)
  ∧ (cursor_occupied (foldl ring_step emptyRing ops) = true ↔
     length (contents (foldl ring_step emptyRing ops)) = RING_SIZE).
Proof.
  intros Hadm.
  destruct (admissible_packed emptyRing ops emptyRing_inv emptyRing_packed Hadm)
    as [Hp _].
  pose proof (admissible_inv _ _ emptyRing_inv Hadm) as (Hok & _ & _).
  set (r := foldl ring_step emptyRing ops) in *. split; [done|].
  pose proof (length_view r) as Hlen. destruct Hok as [Hl Hc]. rewrite Hl in Hlen.
  pose proof (ring_keys_length r (conj Hl Hc)) as Hk.
  unfold ring_keys in Hk. rewrite length_fmap in Hk.
  destruct (view r) as [|x0 R] eqn:Hv; [simpl in Hlen; unfold RING_SIZE in Hlen; lia|].
  rewrite (cursor_occupied_view r x0 R (conj Hl Hc) Hv).
  unfold packed in Hp. rewrite Hv in Hp.
  destruct (RING_SIZE - length (contents r)) as [|h] eqn:Hh; simpl in Hp.
  - destruct (contents r) as [|s c]; [done|]. simpl in Hp. injection Hp as -> _.
    split; [intros _; lia | done].
  - injection Hp as -> _. split; [done | intros ?; lia].
Qed.

(** X19: once the ring holds [RING_SIZE - 1] entries it never holds fewer
    again. *)
Theorem ring_keeps_39_entries ops1 ops2 :
  admissible emptyRing (ops1 ++ ops2) →
  RING_SIZE - 1 ≤ length (contents (foldl ring_step emptyRing ops1)) →
  RING_SIZE - 1 ≤ length (contents (foldl ring_step emptyRing (ops1 ++ ops2))).
Proof.
  intros [Hadm1 Hadm2]%admissible_app Hlen. rewrite foldl_app.
  destruct (admissible_packed emptyRing ops1 emptyRing_inv emptyRing_packed Hadm1)
    as [Hp _].
  pose proof (admissible_inv _ _ emptyRing_inv Hadm1) as Hinv.
  destruct (admissible_packed _ ops2 Hinv Hp Hadm2) as [_ Hh]. lia.
Qed.

(** Two positions of one list: the same, or one before the other. *)
Lemma two_in_list {A} (V1 V2 W1 W2 : list A) x y :
  V1 ++ x :: V2 = W1 ++ y :: W2 →
  (V1 = W1 ∧ x = y ∧ V2 = W2)
  ∨ (∃ M, V1 = W1 ++ y :: M ∧ W2 = M ++ x :: V2)
  ∨ (∃ M, W1 = V1 ++ x :: M ∧ V2 = M ++ y :: W2).
Proof.
  revert W1; induction V1 as [|a V1 IH]; intros W1 H.
  - destruct W1 as [|b W1]; simpl in H; injection H as ? H; subst; [by left|].
    right; right. by exists W1.
  - destruct W1 as [|b W1]; simpl in H; injection H as ? H; subst.
    + right; left. by exists V1.
    + destruct (IH _ H) as [(-> & -> & ->)|[(M & -> & ->)|(M & -> & ->)]].
      * by left.
      * right; left. by exists M.
      * right; right. by exists M.
Qed.

(** One operation moves an entry at most one slot towards the cursor. *)
Lemma ring_step_behind r op s n :
  ring_inv r → admissible_op r op → behind_cursor s r (S n) →
  behind_cursor s (ring_step r op) n.
Proof.
  intros Hinv Hop (V1 & V2 & Hv & Hn). pose proof Hinv as (Hok & Hnd & _).
  destruct V1 as [|x0 V1]; simpl in Hn; [lia|].
  assert (s ∈ contents r) as Hs.
  { unfold contents. apply list_elem_of_omap. exists (Some s). split; [|done].
    rewrite Hv. apply elem_of_app. right. left. }
  destruct op as [k v|k]; simpl.
  - exists V1, (V2 ++ [Some {| key := k; value := v |}]).
    rewrite addToRing_view, Hv by done. simpl.
    split; [by rewrite <- app_assoc | lia].
  - destruct (decide (k ∈ ring_keys r)) as [Hk|Hk].
    2: { rewrite getFromRing_miss by done. simpl.
         exists (x0 :: V1), V2. split; [done | simpl; lia]. }
    unfold ring_keys in Hk. apply list_elem_of_fmap in Hk as (t & -> & Ht).
    assert (Some t ∈ view r) as Htv.
    { unfold contents in Ht. apply list_elem_of_omap in Ht as ([t'|] & Hin & Heq);
        simplify_eq/=. done. }
    apply list_elem_of_split in Htv as (W1 & W2 & Hw).
    destruct (getFromRing_hit_view r W1 t W2 Hinv Hw) as (r' & Hg & Hok' & Hv').
    rewrite Hg. simpl.
    pose proof Hw as Hw'. rewrite Hv in Hw'.
    destruct (two_in_list (x0 :: V1) V2 W1 W2 _ _ Hw')
      as [(<- & [= <-] & <-)|[(M & HV & ->)|(M & -> & ->)]].
    + (* the entry itself is hit: it moves to the far end *)
      pose proof (length_view r') as Hlen. destruct Hok' as [Hl' _].
      rewrite Hl' in Hlen.
      pose proof (length_view r) as Hlen0. destruct Hok as [Hl _].
      rewrite Hl, Hv in Hlen0. rewrite length_app in Hlen0. simpl in Hlen0.
      exists (None :: V1 ++ V2), [].
      split; [rewrite Hv'; simpl; by rewrite <- app_assoc|].
      rewrite Hv' in Hlen. simpl in Hlen. rewrite !length_app in Hlen.
      simpl in *. rewrite length_app. lia.
    + (* the hit lies before the entry *)
      destruct W1 as [|y W1]; simpl in HV; simplify_eq.
      * exists M, (V2 ++ [Some t]). rewrite Hv'.
        split; [by rewrite <- app_assoc; simpl | simpl in Hn; lia].
      * exists (None :: W1 ++ M), (V2 ++ [Some t]). rewrite Hv'.
        split; [simpl; by rewrite <- !app_assoc; simpl|].
        simpl in *. rewrite !length_app in *. simpl in *. lia.
    + (* the hit lies behind the entry *)
      exists (None :: V1), (M ++ W2 ++ [Some t]). rewrite Hv'. simpl.
      split; [by rewrite <- !app_assoc; simpl | simpl; lia].
Qed.

Lemma run_behind r ops s n :
  ring_inv r → admissible r ops → behind_cursor s r (length ops + n) →
  ring_inv (foldl ring_step r ops) ∧ behind_cursor s (foldl ring_step r ops) n.
Proof.
  revert r; induction ops as [|op ops IH]; intros r Hinv Hadm Hb; [done|].
  destruct Hadm as [Hop Hadm]. simpl. apply IH; [by apply ring_step_keys | done |].
  apply ring_step_behind; [done..|]. simpl in Hb.
  by replace (S (length ops + n)) with (S (length ops) + n) by lia.
Qed.

(** An entry in the ring is found by its key. *)
Lemma behind_cursor_found r s n :
  ring_inv r → behind_cursor s r n →
  (getFromRing (key s) r).1 = Some (value s).
Proof.
  intros Hinv (V1 & V2 & Hv & _).
  destruct (getFromRing_hit_view r V1 s V2 Hinv Hv) as (r' & -> & _). done.
Qed.

(** A touch leaves the entry at the far end of the ring order. *)
Lemma touch_behind r op :
  ring_inv r → admissible_op r op → touches r op = true →
  ∃ s, key s = op_key op
       ∧ Some (value s) = match op with
                          | Put _ v => Some v
                          | Get k => (getFromRing k r).1
                          end
       ∧ behind_cursor s (ring_step r op) (RING_SIZE - 1).
Proof.
  intros Hinv Hop Ht. pose proof Hinv as (Hok & _ & _).
  destruct (ring_step_keys r op Hinv Hop) as [[Hok' _] _].
  pose proof (length_view (ring_step r op)) as Hlen.
  destruct Hok' as [Hl' _]. rewrite Hl' in Hlen.
  assert (∀ s V, view (ring_step r op) = V ++ [Some s] →
            behind_cursor s (ring_step r op) (RING_SIZE - 1)) as Hend.
  { intros s V HV. exists V, []. split; [done|].
    rewrite HV, length_app in Hlen. simpl in Hlen. lia. }
  destruct op as [k v|k]; simpl in *.
  - exists {| key := k; value := v |}. split; [done|]. split; [done|].
    eapply Hend. by apply addToRing_view.
  - apply bool_decide_eq_true in Ht. unfold ring_keys in Ht.
    apply list_elem_of_fmap in Ht as (t & -> & Ht).
    assert (Some t ∈ view r) as Htv.
    { unfold contents in Ht. apply list_elem_of_omap in Ht as ([t'|] & Hin & Heq);
        simplify_eq/=. done. }
    apply list_elem_of_split in Htv as (W1 & W2 & Hw).
    destruct (getFromRing_hit_view r W1 t W2 Hinv Hw) as (r' & Hg & _ & Hv').
    rewrite Hg in *. simpl in *. exists t. split; [done|]. split; [done|].
    destruct W1 as [|y W1].
    + by eapply Hend.
    + apply (Hend t (None :: W1 ++ W2)). rewrite Hv'. simpl.
      by rewrite <- app_assoc.
Qed.

(** X20: an entry that was just put or hit is still found, with its value,
    after any [RING_SIZE - 1] further operations of an admissible run. *)
Theorem touched_entry_survives r op ops :
  ring_inv r → admissible_op r op → touches r op = true →
  admissible (ring_step r op) ops → length ops < RING_SIZE →
  (getFromRing (op_key op) (foldl ring_step (ring_step r op) ops)).1
  = match op with
    | Put _ v => Some v
    | Get k => (getFromRing k r).1
    end.
Proof.
  intros Hinv Hop Ht Hadm Hlen.
  destruct (touch_behind r op Hinv Hop Ht) as (s & <- & <- & Hb).
  destruct (run_behind (ring_step r op) ops s 0) as [Hinv' Hb'];
    [by apply ring_step_keys | done | |].
  { destruct Hb as (V1 & V2 & Hv & Hn). exists V1, V2. split; [done | lia]. }
  by eapply behind_cursor_found.
Qed.

(** X21: the [while] loop of [getFromRing] ends within [gRing.length]
    passes: from that many passes on, more passes change neither the value
    returned nor the ring. *)
Theorem getFromRing_terminates fuel k r :
  ring_ok r → length (gRing r) ≤ fuel →
  getFromRing_loop fuel k 0 None r = getFromRing k r.
Proof.
  intros Hok Hf. unfold getFromRing.
  apply getFromRing_loop_enough; [done | lia | done].
Qed.

Lemma admissibleb_true r ops : admissibleb r ops = true → admissible r ops.
Proof.
  revert r; induction ops as [|op ops IH]; intros r H; [done|]. simpl in *.
  apply andb_true_iff in H as [Hop H]. split; [|by apply IH].
  destruct op as [k v|k]; [|done].
  apply andb_true_iff in Hop as [H1 H2].
  split; by eapply bool_decide_eq_true.
Qed.

Lemma ring_empty_slots_at_cursor_witness :
  packed (foldl ring_step emptyRing fill_ops)
  ∧ (cursor_occupied (foldl ring_step emptyRing fill_ops) = true ↔
     length (contents (foldl ring_step emptyRing fill_ops)) = RING_SIZE).
Proof.
  apply (ring_empty_slots_at_cursor fill_ops).
  apply admissibleb_true. vm_compute. reflexivity.
Defined.

Lemma ring_keeps_39_entries_witness :
  RING_SIZE - 1
  ≤ length (contents (foldl ring_step emptyRing (fill_ops ++ [Get (key_n 1)]))).
Proof.
  apply (ring_keeps_39_entries fill_ops [Get (key_n 1)]).
  - apply admissibleb_true. vm_compute. reflexivity.
  - vm_compute. lia.
Defined.

Lemma touched_entry_survives_witness :
  (getFromRing (js "a")
     (foldl ring_step (ring_step two_entries (Get (js "a")))
        [Put (js "c") (js "[]")])).1
  = (getFromRing (js "a") two_entries).1.
Proof.
  apply (touched_entry_survives two_entries (Get (js "a")) [Put (js "c") (js "[]")]).
  - change (ring_inv (foldl ring_step emptyRing
              [Put (js "a") (js "[]"); Put (js "b") (js "[]")])).
    apply admissible_inv; [apply emptyRing_inv|].
    apply admissibleb_true. vm_compute. reflexivity.
  - exact I.
  - vm_compute. reflexivity.
  - apply admissibleb_true. vm_compute. reflexivity.
  - vm_compute. lia.
Defined.

Lemma getFromRing_terminates_witness :
  getFromRing_loop 100 (js "a") 0 None two_entries = getFromRing (js "a") two_entries.
Proof.
  apply (getFromRing_terminates 100 (js "a") two_entries).
  - split; [reflexivity | vm_compute; lia].
  - vm_compute. lia.
Defined.

(** ** The route *)

Section RouteFacts.

Variable fold : jsstring -> jsstring.
Variable fold_undefined : option jsstring.
Variable toLowerCase : jsstring -> jsstring.
Variable gShortDefinitions : gmap (option jsstring) jsstring.
Variable gEldamoDictionary : option (list DictionaryEntry).
Variable JSON_stringify_object : ResultEntry -> jsstring.

(** The route's functions at the module's dictionary, table and folder. *)
Local Abbreviation handler :=
  (define fold fold_undefined toLowerCase gShortDefinitions gEldamoDictionary
     JSON_stringify_object).
Local Abbreviation served :=
  (serve fold fold_undefined toLowerCase gShortDefinitions gEldamoDictionary
     JSON_stringify_object).
Local Abbreviation handler_ops :=
  (define_ops fold fold_undefined toLowerCase gShortDefinitions gEldamoDictionary
     JSON_stringify_object).
Local Abbreviation served_ops :=
  (serve_ops fold fold_undefined toLowerCase gShortDefinitions gEldamoDictionary
     JSON_stringify_object).
Local Abbreviation fresh :=
  (coherent fold fold_undefined toLowerCase gShortDefinitions gEldamoDictionary
     JSON_stringify_object).
Local Abbreviation text_of := (JSON_stringify JSON_stringify_object).

Lemma JSON_stringify_nonempty result : text_of result ≠ [].
Proof. done. Qed.

(** The ring holds the key or the lookup misses. *)
Lemma getFromRing_cases r k :
  ring_inv r →
  ((k ∉ ring_keys r) ∧ getFromRing k r = (None, r))
  ∨ (∃ s, s ∈ contents r ∧ key s = k
          ∧ (getFromRing k r).1 = Some (value s) ∧ value s ≠ []
          ∧ ring_inv (getFromRing k r).2
          ∧ ∀ t, t ∈ contents (getFromRing k r).2 → t ∈ contents r).
Proof.
  intros Hinv. destruct (decide (k ∈ ring_keys r)) as [Hk|Hk].
  2: { left. split; [done | by apply getFromRing_miss]. }
  right. unfold ring_keys in Hk. apply list_elem_of_fmap in Hk as (s & -> & Hs).
  pose proof Hs as Hs'. apply list_elem_of_split in Hs' as (l1 & l2 & Hc).
  destruct (getFromRing_hit r l1 s l2 Hinv Hc) as (r' & Hg & Hinv' & Hc').
  exists s. rewrite Hg. simpl. split; [done|]. split; [done|]. split; [done|].
  split. { destruct Hinv as (_ & _ & Hval). rewrite Forall_forall in Hval. by apply Hval. }
  split; [done|]. intros t Ht. rewrite Hc' in Ht. rewrite Hc.
  rewrite !elem_of_app, list_elem_of_singleton in Ht.
  rewrite elem_of_app, elem_of_cons.
  destruct Ht as [Ht|[Ht| ->]]; [left|right; by right|right; by left].
  destruct (cursor_occupied r); [by apply elem_of_tail | done].
Qed.

(** One request on a fresh ring. *)
Lemma define_step word r :
  ring_inv r → fresh r →
  (handler word r).1
  = matchQuery fold fold_undefined toLowerCase gShortDefinitions
      gEldamoDictionary (toLowerCase (fold word))
    ≫= (λ result, Some (text_of result))
  ∧ ring_inv (handler word r).2 ∧ fresh (handler word r).2
  ∧ admissible r (handler_ops word r)
  ∧ (handler word r).2 = foldl ring_step r (handler_ops word r).
Proof.
  intros Hinv Hco. unfold define, define_ops.
  set (q := toLowerCase (fold word)).
  destruct (getFromRing_cases r q Hinv)
    as [[Hk Hg]|(s & Hs & Hq & Hg & Hv & Hinv' & Hsub)].
  - rewrite Hg. simpl.
    destruct (matchQuery _ _ _ _ _ q) as [result|] eqn:Hm; simpl.
    + split; [done|]. rewrite Hg. simpl.
      split; [by apply addToRing_inv|]. split; [|done].
      intros s Hs. rewrite addToRing_contents in Hs by apply Hinv.
      apply elem_of_app in Hs as [Hs|Hs%list_elem_of_singleton].
      * apply Hco. destruct (cursor_occupied r); [by apply elem_of_tail | done].
      * subst s. simpl. by rewrite Hm.
    + rewrite Hg. simpl. done.
  - destruct (getFromRing q r) as [res r'] eqn:Hgr. simpl in *. subst res.
    assert (truthy (Some (value s)) = true) as -> by (by destruct (value s)).
    simpl. rewrite Hgr. simpl. split.
    { rewrite <- Hq. symmetry. by apply Hco. }
    split; [done|]. split; [|done].
    intros t Ht. by apply Hco, Hsub.
Qed.

Lemma emptyRing_coherent : fresh emptyRing.
Proof.
  intros s Hs. assert (contents emptyRing = []) as Hc by reflexivity.
  rewrite Hc in Hs. by apply elem_of_nil in Hs.
Qed.

Lemma serve_inv words r :
  ring_inv r → fresh r →
  ring_inv (served r words) ∧ fresh (served r words)
  ∧ admissible r (served_ops r words)
  ∧ served r words = foldl ring_step r (served_ops r words).
Proof.
  revert r; induction words as [|w words IH]; intros r Hinv Hco; [done|].
  destruct (define_step w r Hinv Hco) as (_ & Hinv' & Hco' & Hadm & Heq).
  destruct (IH _ Hinv' Hco') as (I1 & I2 & I3 & I4).
  change (served r (w :: words)) with (served (handler w r).2 words).
  cbn [serve_ops]. split; [done|]. split; [done|]. split.
  - apply admissible_app. split; [done|]. by rewrite <- Heq.
  - by rewrite foldl_app, <- Heq.
Qed.

(** X22: whatever requests came before, the route answers a request with
    the JSON text of [matchQuery] at the folded, lower-cased word, and fails
    exactly when [matchQuery] throws; the ring never changes an answer. *)
Theorem define_answers_query words word :
  (define fold fold_undefined toLowerCase gShortDefinitions gEldamoDictionary
       JSON_stringify_object word
     (serve fold fold_undefined toLowerCase gShortDefinitions gEldamoDictionary
       JSON_stringify_object emptyRing words)).1
  = matchQuery fold fold_undefined toLowerCase gShortDefinitions
      gEldamoDictionary (toLowerCase (fold word))
    ≫= (λ result, Some (JSON_stringify JSON_stringify_object result)).
Proof.
  destruct (serve_inv words emptyRing emptyRing_inv emptyRing_coherent)
    as (Hinv & Hco & _).
  by apply define_step.
Qed.

(** X23: the requests drive the ring through an admissible run: a key is
    put only when the ring does not hold it, with a non-empty text; so the
    ring keeps every key once. *)
Theorem serve_admissible words :
  admissible emptyRing
    (serve_ops fold fold_undefined toLowerCase gShortDefinitions gEldamoDictionary
       JSON_stringify_object emptyRing words)
  ∧ serve fold fold_undefined toLowerCase gShortDefinitions gEldamoDictionary
       JSON_stringify_object emptyRing words
    = foldl ring_step emptyRing
        (serve_ops fold fold_undefined toLowerCase gShortDefinitions gEldamoDictionary
       JSON_stringify_object emptyRing words)
  ∧ ring_inv
      (serve fold fold_undefined toLowerCase gShortDefinitions gEldamoDictionary
       JSON_stringify_object emptyRing words).
Proof.
  destruct (serve_inv words emptyRing emptyRing_inv emptyRing_coherent)
    as (Hinv & _ & Hadm & Heq).
  done.
Qed.

Lemma behind_cursor_weaken s r n m :
  m ≤ n → behind_cursor s r n → behind_cursor s r m.
Proof. intros Hle (V1 & V2 & Hv & Hn). exists V1, V2. split; [done | lia]. Qed.

(** One request moves an entry at most one slot towards the cursor. *)
Lemma define_behind word r s n :
  ring_inv r → behind_cursor s r (S n) →
  ring_inv (handler word r).2 ∧ behind_cursor s (handler word r).2 n.
Proof.
  intros Hinv Hb. unfold define. set (q := toLowerCase (fold word)).
  destruct (getFromRing_cases r q Hinv)
    as [[Hk Hg]|(t & Ht & Hq & Hg & Hv & Hinv' & Hsub)].
  - rewrite Hg. simpl.
    destruct (matchQuery _ _ _ _ _ q) as [result|]; simpl.
    + split; [by apply addToRing_inv|].
      by apply (ring_step_behind r (Put q (text_of result))).
    + split; [done|]. eapply behind_cursor_weaken; [|exact Hb]. lia.
  - pose proof (ring_step_behind r (Get q) s n Hinv I Hb) as Hb'. simpl in Hb'.
    destruct (getFromRing q r) as [res r'] eqn:Hgr. simpl in *. subst res.
    assert (truthy (Some (value t)) = true) as -> by (by destruct (value t)).
    done.
Qed.

(** A request that is answered leaves its answer at the far end of the
    ring order. *)
Lemma define_touches word r text :
  ring_inv r → (handler word r).1 = Some text →
  ring_inv (handler word r).2
  ∧ ∃ s, key s = toLowerCase (fold word) ∧ value s = text
         ∧ behind_cursor s (handler word r).2 (RING_SIZE - 1).
Proof.
  intros Hinv. unfold define. set (q := toLowerCase (fold word)).
  destruct (getFromRing_cases r q Hinv)
    as [[Hk Hg]|(t & Ht & Hq & Hg & Hv & Hinv' & Hsub)].
  - rewrite Hg. simpl.
    destruct (matchQuery _ _ _ _ _ q) as [result|]; simpl; [|done].
    intros [= <-]. split; [by apply addToRing_inv|].
    destruct (touch_behind r (Put q (text_of result)) Hinv)
      as (s & Hks & Hvs & Hb); [done..|].
    exists s. simpl in *. split; [done|]. split; [congruence | done].
  - destruct (touch_behind r (Get q) Hinv I) as (s & Hks & Hvs & Hb).
    { simpl. apply bool_decide_eq_true. unfold ring_keys.
      apply list_elem_of_fmap. by exists t. }
    simpl in *.
    destruct (getFromRing q r) as [res r'] eqn:Hgr. simpl in *. subst res.
    assert (truthy (Some (value t)) = true) as -> by (by destruct (value t)).
    simpl. intros [= <-]. split; [done|]. exists s.
    split; [done|]. split; [congruence | done].
Qed.

Lemma serve_behind words r s n :
  ring_inv r → behind_cursor s r (length words + n) →
  ring_inv (served r words) ∧ behind_cursor s (served r words) n.
Proof.
  revert r; induction words as [|w words IH]; intros r Hinv Hb; [done|].
  change (served r (w :: words)) with (served (handler w r).2 words).
  simpl in Hb.
  destruct (define_behind w r s (length words + n) Hinv Hb) as [Hinv' Hb'].
  by apply IH.
Qed.

(** X24: an answer that was sent is found in the ring, and sent again
    unchanged, when the same word is requested after at most [RING_SIZE - 1]
    other requests. *)
Theorem define_cached_for_39_requests word words r text :
  ring_inv r →
  (define fold fold_undefined toLowerCase gShortDefinitions gEldamoDictionary
       JSON_stringify_object word r).1 = Some text →
  length words < RING_SIZE →
  (getFromRing (toLowerCase (fold word))
     (serve fold fold_undefined toLowerCase gShortDefinitions gEldamoDictionary
       JSON_stringify_object
        (define fold fold_undefined toLowerCase gShortDefinitions gEldamoDictionary
       JSON_stringify_object word r).2 words)).1
  = Some text
  ∧ (define fold fold_undefined toLowerCase gShortDefinitions gEldamoDictionary
       JSON_stringify_object word
       (serve fold fold_undefined toLowerCase gShortDefinitions gEldamoDictionary
       JSON_stringify_object
          (define fold fold_undefined toLowerCase gShortDefinitions gEldamoDictionary
       JSON_stringify_object word r).2 words)).1
    = Some text.
Proof.
  intros Hinv Hd Hlen.
  destruct (define_touches word r text Hinv Hd) as (Hinv1 & s & Hk & Hv & Hb).
  destruct (serve_behind words (handler word r).2 s 0 Hinv1) as [Hinv2 Hb2].
  { eapply behind_cursor_weaken; [|exact Hb]. lia. }
  pose proof (behind_cursor_found _ _ _ Hinv2 Hb2) as Hg.
  rewrite Hk, Hv in Hg. split; [done|].
  unfold define. fold (served (handler word r).2 words).
  destruct (getFromRing _ (served _ words)) as [res r']. simpl in Hg. subst res.
  assert (truthy (Some text) = true) as ->; [|done].
  destruct Hinv2 as (_ & _ & Hval). destruct Hb2 as (V1 & V2 & Hview & _).
  rewrite Forall_forall in Hval.
  assert (value s ≠ []) as Hne.
  { apply Hval. unfold contents. apply list_elem_of_omap. exists (Some s).
    split; [|done]. rewrite Hview. apply elem_of_app. right. left. }
  rewrite Hv in Hne. by destruct text.
Qed.

End RouteFacts.

Lemma define_cached_for_39_requests_witness :
  (getFromRing (toLowerCase_latin (fold_ascii (js "Aran")))
     (serve fold_ascii None toLowerCase_latin lexicon_table (Some lexicon_entries)
        headword_object
        (define fold_ascii None toLowerCase_latin lexicon_table
           (Some lexicon_entries) headword_object (js "Aran") emptyRing).2
        [js "ar"; js "x"])).1
  = Some (js "[{aran}]")
  ∧ (define fold_ascii None toLowerCase_latin lexicon_table (Some lexicon_entries)
       headword_object (js "Aran")
       (serve fold_ascii None toLowerCase_latin lexicon_table (Some lexicon_entries)
          headword_object
          (define fold_ascii None toLowerCase_latin lexicon_table
             (Some lexicon_entries) headword_object (js "Aran") emptyRing).2
          [js "ar"; js "x"])).1
    = Some (js "[{aran}]").
Proof.
  apply (define_cached_for_39_requests fold_ascii None toLowerCase_latin
           lexicon_table (Some lexicon_entries) headword_object
           (js "Aran") [js "ar"; js "x"] emptyRing (js "[{aran}]")).
  - apply emptyRing_inv.
  - vm_compute. reflexivity.
  - vm_compute. lia.
Defined.
